(** * cctkpkg.sequence_operations: rev_comp, hamming, needle, find_indices

    A shallow embedding of the sequence primitives of the CRISPR comparison
    toolkit (file [cctkpkg/sequence_operations.py]), the properties its
    specification states about them, and further properties read off the
    code: error behaviour, [hamming] as a distance, [rev_comp] and
    [find_indices] on concatenations, [needle] on a sequence and itself
    and on [nan] scores.

    Modelling conventions.
    - A Python [str] is a Rocq [string]; one [ascii] stands for one
      character.  The items of a [list] or [tuple] handed to [needle] are
      opaque tokens compared with [==]; they are modelled as strings, and
      the characters of a [str] as one-character strings, so that the gap
      marker ['-'] is the token ["-"].
    - [numpy.zeros] holds IEEE binary64 cells.  When [match], [mismatch]
      and [gap] are all Python [int]s the cells only ever hold integers,
      and binary64 arithmetic on integers of magnitude at most 2^53 is
      exact; the integer instance [Z_number] is this exact reading of the
      grid.  It is the code as long as
      [(len seq1 + len seq2 + 1) * max |score| <= 2^53], which the default
      scores satisfy on every pair of sequences whose grid fits in
      memory ([scores_exact]); beyond, it is an idealisation: the
      source rounds there, and raises [OverflowError] when an [int]
      does not fit binary64, which the embedding has no path for.  As
      soon as one score is a [float] the grid is computed with the
      kernel's binary64 numbers ([float_number]), an [int] score next
      to it being converted, exactly when its magnitude is at most
      [2^53] ([exact_score]).  The statements on three [int]
      scores are about this exact reading of the grid; those that
      cover [float] scores carry [exact_score] as a hypothesis.
    - The first [while] loop of the backtrace has no [else] branch, so
      its termination is a property to be proved: it is run with fuel,
      and [OutOfFuel] is the only outcome that does not correspond to a
      returned value or a raised exception.  Every theorem that says
      [needle] returns gives the fuel that suffices,
      [len(seq1) + len(seq2)].  The loop of [find_indices] is run with
      fuel in the same way.
    - Sequences are compared as sequences of items: [needle] returns
      two [str] when both arguments are [str] and two [list] otherwise,
      also for [tuple] arguments. *)

From Stdlib Require Import ZArith Lia Bool Ascii String List.
From Stdlib Require Import Floats.PrimFloat Floats.SpecFloat Floats.FloatOps.
From Stdlib Require Import Floats.FloatAxioms Sorting.Sorted.
From stdpp Require Import base option list strings gmap.

Open Scope string_scope.
Open Scope list_scope.
Open Scope nat_scope.

(** ** Python values, types and outcomes *)

(** A token of a sequence: a character of a [str], or an item of a list. *)
Definition symbol : Type := string.

Inductive pytype : Type :=
  | Tstr | Tlist | Ttuple | Tint | Tfloat | Tbool | TNoneType.

Inductive pyval : Type :=
  | Vstr (s : string)
  | Vlist (l : list symbol)
  | Vtuple (l : list symbol)
  | Vint (z : Z)
  | Vfloat (f : float)
  | Vbool (b : bool)
  | Vnone.

(** [type(v)] *)
Definition type_of (v : pyval) : pytype :=
  match v with
  | Vstr _ => Tstr
  | Vlist _ => Tlist
  | Vtuple _ => Ttuple
  | Vint _ => Tint
  | Vfloat _ => Tfloat
  | Vbool _ => Tbool
  | Vnone => TNoneType
  end.

(** [type(v).__name__] *)
Definition type_name (t : pytype) : string :=
  match t with
  | Tstr => "str"
  | Tlist => "list"
  | Ttuple => "tuple"
  | Tint => "int"
  | Tfloat => "float"
  | Tbool => "bool"
  | TNoneType => "NoneType"
  end.

Definition pytype_eqb (a b : pytype) : bool :=
  match a, b with
  | Tstr, Tstr | Tlist, Tlist | Ttuple, Ttuple | Tint, Tint
  | Tfloat, Tfloat | Tbool, Tbool | TNoneType, TNoneType => true
  | _, _ => false
  end.

(** [t in ts] for a list of types *)
Definition type_in (t : pytype) (ts : list pytype) : bool :=
  existsb (pytype_eqb t) ts.

(** The exceptions the embedding can raise.  [OverflowError], which the
    source raises when an [int] score beyond the range of binary64
    meets the [float] grid of [needle], is not among them: such scores
    are outside the embedding (see [exact_score], [scores_exact]). *)
Inductive exn : Type :=
  | TypeError (msg : string)
  | KeyError (key : string).

(** What a call does: it returns, it raises, or the fuel given to its
    [while] loop ran out. *)
Inductive outcome (A : Type) : Type :=
  | Return (a : A)
  | Raise (e : exn)
  | OutOfFuel.
Arguments Return {A} a.
Arguments Raise {A} e.
Arguments OutOfFuel {A}.

#[export] Instance outcome_bind : MBind outcome := fun A B k o =>
  match o with
  | Return a => k a
  | Raise e => Raise e
  | OutOfFuel => OutOfFuel
  end.

(** The characters of a [str], each as a one-character string. *)
Definition chars (s : string) : list symbol :=
  map (fun c => String c EmptyString) (list_ascii_of_string s).

(** A token that is one character long. *)
Definition single (x : symbol) : Prop := exists c, x = String c EmptyString.

(** The items of a sequence value, in order ([seq[0]], [seq[1]], ...). *)
Definition items (v : pyval) : list symbol :=
  match v with
  | Vstr s => chars s
  | Vlist l => l
  | Vtuple l => l
  | _ => []
  end.

(** [''.join(l)] *)
Definition join (l : list symbol) : string := String.concat EmptyString l.

(** [isinstance(v, str)] *)
Definition is_str (v : pyval) : bool :=
  match v with Vstr _ => true | _ => false end.

(** ** Numbers of the score grid *)

Class Number (R : Type) : Type := {
  num_zero : R;                 (* a cell of [np.zeros] *)
  num_add : R -> R -> R;        (* [cell + score] *)
  num_mul_nat : R -> nat -> R;  (* [gap * i] *)
  num_gtb : R -> R -> bool;     (* [a > b], as [max] uses it *)
  num_eqb : R -> R -> bool      (* [a == b] *)
}.

#[export] Instance Z_number : Number Z := {|
  num_zero := 0%Z;
  num_add := Z.add;
  num_mul_nat := fun g i => (g * Z.of_nat i)%Z;
  num_gtb := Z.gtb;
  num_eqb := Z.eqb
|}.

(** Conversion of a Python [int] to binary64, rounding to nearest even. *)
Definition float_of_Z (z : Z) : float :=
  SF2Prim (binary_normalize prec emax z 0 false).

#[export] Instance float_number : Number float := {|
  num_zero := PrimFloat.zero;
  num_add := PrimFloat.add;
  num_mul_nat := fun g i => PrimFloat.mul g (float_of_Z (Z.of_nat i));
  num_gtb := fun a b => PrimFloat.ltb b a;
  num_eqb := PrimFloat.eqb
|}.

(** A numeric argument as binary64, as [cell + score] converts it.  (With
    an [int] gap next to a [float] score, Python rounds the exact
    product [gap * i] once; [float_number] rounds [gap] and then the
    product, which is the same up to [2^53].)  This is the source's
    conversion for an [int] of magnitude at most [2^53]
    ([exact_score]); the source raises [OverflowError] for an [int]
    beyond the range of binary64, which is not modelled. *)
Definition to_float (v : pyval) : float :=
  match v with
  | Vint z => float_of_Z z
  | Vfloat f => f
  | _ => PrimFloat.zero
  end.

(** ** The alignment core, over any kind of number *)

(** [seq[k]] for an index the loops keep within [0 <= k < len(seq)]. *)
Definition item_at (s : list symbol) (k : nat) : symbol := nth k s EmptyString.

(** The gap marker ['-']. *)
Definition gap_marker : symbol := "-".

Section Core.
Context {R : Type} `{Number R}.

(** The score grid: a list of rows. *)
Abbreviation grid := (list (list R)).

(** [np.zeros((rows, cols))] *)
Definition zeros (rows cols : nat) : grid :=
  replicate rows (replicate cols num_zero).

(** [g[r][c]].  Python raises [IndexError] outside the grid; [needle]
    only reads and writes cells [0 <= r <= len(seq2)],
    [0 <= c <= len(seq1)] of its [(len(seq2)+1) x (len(seq1)+1)] grid,
    and the value given here outside the grid is never used. *)
Definition grid_get (g : grid) (r c : nat) : R :=
  match g !! r with
  | Some row => default num_zero (row !! c)
  | None => num_zero
  end.

(** [g[r][c] = v], within the grid. *)
Definition grid_set (g : grid) (r c : nat) (v : R) : grid :=
  alter (fun row => <[c := v]> row) r g.

(** A grid of [rows] rows of [cols] cells each. *)
Definition grid_ok (rows cols : nat) (g : grid) : Prop :=
  length g = rows /\ forall r row, g !! r = Some row -> length row = cols.

(** [max([a, b, c])]: the first of the largest items, found with [>]. *)
Definition py_max3 (a b c : R) : R :=
  let m := a in
  let m := if num_gtb b m then b else m in
  if num_gtb c m then c else m.

Variables seq1 seq2 : list symbol.
Variables match_ mismatch gap : R.

(** [score = match if seq1[i] == seq2[j] else mismatch] *)
Definition pair_score (i j : nat) : R :=
  if String.eqb (item_at seq1 i) (item_at seq2 j) then match_ else mismatch.

(** [for i in range(len(seq1)+1): grid[0][i] = gap*i] *)
Definition init_row0 (g : grid) : grid :=
  foldl (fun g i => grid_set g 0 i (num_mul_nat gap i)) g
        (seq 0 (length seq1 + 1)).

(** [for i in range(len(seq2)+1): grid[i][0] = gap*i] *)
Definition init_col0 (g : grid) : grid :=
  foldl (fun g i => grid_set g i 0 (num_mul_nat gap i)) g
        (seq 0 (length seq2 + 1)).

(** The body of the inner loop: [grid[j+1][i+1] = max([...])]. *)
Definition fill_cell (g : grid) (i j : nat) : grid :=
  let score := pair_score i j in
  grid_set g (j + 1) (i + 1)
    (py_max3 (num_add (grid_get g j i) score)
             (num_add (grid_get g (j + 1) i) gap)
             (num_add (grid_get g j (i + 1)) gap)).

(** [for i in range(len(seq1)): for j in range(len(seq2)): ...] *)
Definition fill (g : grid) : grid :=
  foldl (fun g i => foldl (fun g j => fill_cell g i j) g
                          (seq 0 (length seq2)))
        g (seq 0 (length seq1)).

(** The grid as it stands when the backtrace starts. *)
Definition score_grid : grid :=
  fill (init_col0 (init_row0 (zeros (length seq2 + 1) (length seq1 + 1)))).

(** The score matrix in the words of the specification: row 0 and
    column 0 hold the cumulative gap penalty, every other cell is the
    largest of diagonal + match-or-mismatch, left + gap and up + gap. *)
Fixpoint nw_score (r : nat) : nat -> R :=
  match r with
  | 0 => fun c => num_mul_nat gap c
  | S r' =>
      fix row (c : nat) : R :=
        match c with
        | 0 => num_mul_nat gap (S r')
        | S c' =>
            py_max3 (num_add (nw_score r' c') (pair_score c' r'))
                    (num_add (row c') gap)
                    (num_add (nw_score r' (S c')) gap)
        end
  end.

(** The variables of the backtrace. *)
Record trace : Type := Trace {
  tr_i : nat;
  tr_j : nat;
  align1 : list symbol;
  align2 : list symbol
}.

(** One pass through the body of [while i > 0 and j > 0].  When none of
    the three tests succeeds nothing is assigned. *)
Definition trace_body (g : grid) (t : trace) : trace :=
  let i := tr_i t in
  let j := tr_j t in
  let score_current := grid_get g i j in
  let score_diagonal := grid_get g (i - 1) (j - 1) in
  let score_up := grid_get g i (j - 1) in
  let score_left := grid_get g (i - 1) j in
  let score := pair_score (j - 1) (i - 1) in
  if num_eqb score_current (num_add score_diagonal score) then
    Trace (i - 1) (j - 1)
          (align1 t ++ [item_at seq1 (j - 1)])
          (align2 t ++ [item_at seq2 (i - 1)])
  else if num_eqb score_current (num_add score_up gap) then
    Trace i (j - 1)
          (align1 t ++ [item_at seq1 (j - 1)])
          (align2 t ++ [gap_marker])
  else if num_eqb score_current (num_add score_left gap) then
    Trace (i - 1) j
          (align1 t ++ [gap_marker])
          (align2 t ++ [item_at seq2 (i - 1)])
  else t.

(** [while i > 0 and j > 0: body] *)
Fixpoint trace_loop (fuel : nat) (g : grid) (t : trace) : option trace :=
  if (0 <? tr_i t) && (0 <? tr_j t) then
    match fuel with
    | 0 => None
    | S fuel' => trace_loop fuel' g (trace_body g t)
    end
  else Some t.

(** [while j > 0: align1.append(seq1[j-1]); align2.append('-'); j -= 1] *)
Fixpoint finish_j (j : nat) (a1 a2 : list symbol)
  : list symbol * list symbol :=
  match j with
  | 0 => (a1, a2)
  | S j' => finish_j j' (a1 ++ [item_at seq1 j']) (a2 ++ [gap_marker])
  end.

(** [while i > 0: align1.append('-'); align2.append(seq2[i-1]); i -= 1] *)
Fixpoint finish_i (i : nat) (a1 a2 : list symbol)
  : list symbol * list symbol :=
  match i with
  | 0 => (a1, a2)
  | S i' => finish_i i' (a1 ++ [gap_marker]) (a2 ++ [item_at seq2 i'])
  end.

(** The two lists as the three loops leave them: last column first. *)
Definition backtrace (fuel : nat) : option (list symbol * list symbol) :=
  match trace_loop fuel score_grid
          (Trace (length seq2) (length seq1) [] []) with
  | None => None
  | Some t =>
      let '(a1, a2) := finish_j (tr_j t) (align1 t) (align2 t) in
      Some (finish_i (tr_i t) a1 a2)
  end.

(** [align1[::-1], align2[::-1]] *)
Definition needle_core (fuel : nat) : option (list symbol * list symbol) :=
  match backtrace fuel with
  | None => None
  | Some (a1, a2) => Some (rev a1, rev a2)
  end.

(** At the cell of [t] the test of the diagonal fails and both other
    tests hold: the cell is reached with a gap as well from the cell
    [grid[i][j-1]] as from the cell [grid[i-1][j]].  The [if]/[elif]
    chain then takes its second branch. *)
Definition gap_tie (g : grid) (t : trace) : bool :=
  let i := tr_i t in
  let j := tr_j t in
  let score_current := grid_get g i j in
  let score_diagonal := grid_get g (i - 1) (j - 1) in
  let score_up := grid_get g i (j - 1) in
  let score_left := grid_get g (i - 1) j in
  let score := pair_score (j - 1) (i - 1) in
  negb (num_eqb score_current (num_add score_diagonal score))
  && num_eqb score_current (num_add score_up gap)
  && num_eqb score_current (num_add score_left gap).

(** The first loop, started at [t], comes through such a cell. *)
Fixpoint tie_on_path (fuel : nat) (g : grid) (t : trace) : bool :=
  if (0 <? tr_i t) && (0 <? tr_j t) then
    match fuel with
    | 0 => false
    | S fuel' => gap_tie g t || tie_on_path fuel' g (trace_body g t)
    end
  else false.
End Core.

(** The variables of the backtrace of [needle(seq2, seq1)] that stand
    for those of the backtrace of [needle(seq1, seq2)]. *)
Definition swap_trace (t : trace) : trace :=
  Trace (tr_j t) (tr_i t) (align2 t) (align1 t).

(** ** [needle] *)

(** The guards at the head of [needle], in the order of the source. *)
Definition check_seq (v : pyval) : outcome unit :=
  if type_in (type_of v) [Tstr; Tlist; Ttuple] then Return tt
  else Raise (TypeError ("Inputs must be str, list, or tuple, not "
                           ++ type_name (type_of v) ++ ".")%string).

Definition check_num (name : string) (v : pyval) : outcome unit :=
  if type_in (type_of v) [Tint; Tfloat] then Return tt
  else Raise (TypeError (name ++ " must be int or float, not "
                           ++ type_name (type_of v) ++ ".")%string).

Definition check_args (seq1 seq2 match_ mismatch gap : pyval) : outcome unit :=
  _ ← check_seq seq1;
  _ ← check_seq seq2;
  _ ← check_num "match" match_;
  _ ← check_num "mismatch" mismatch;
  check_num "gap" gap.

(** Everything after the guards: the grid, the backtrace, the reversal.
    With three [int] scores the grid is filled over [Z]: this is the
    binary64 grid of the source as long as it holds every number
    exactly ([scores_exact]), as with the default scores; beyond, the
    source rounds, or raises [OverflowError], and the embedding does
    not follow it. *)
Definition align_lists (fuel : nat) (s1 s2 : list symbol)
    (match_ mismatch gap : pyval) : option (list symbol * list symbol) :=
  match match_, mismatch, gap with
  | Vint m, Vint mm, Vint g => needle_core s1 s2 m mm g fuel
  | _, _, _ =>
      needle_core s1 s2 (to_float match_) (to_float mismatch) (to_float gap)
                  fuel
  end.

(** Strings when both inputs were strings, lists otherwise. *)
Definition wrap (seq1 seq2 : pyval) (a : list symbol) : pyval :=
  if is_str seq1 && is_str seq2 then Vstr (join a) else Vlist a.

Definition needle (fuel : nat) (seq1 seq2 match_ mismatch gap : pyval)
  : outcome (pyval * pyval) :=
  _ ← check_args seq1 seq2 match_ mismatch gap;
  match align_lists fuel (items seq1) (items seq2) match_ mismatch gap with
  | None => OutOfFuel
  | Some (a1, a2) => Return (wrap seq1 seq2 a1, wrap seq1 seq2 a2)
  end.

(** [needle(seq1, seq2)] with the default scores. *)
Definition needle_default (fuel : nat) (seq1 seq2 : pyval)
  : outcome (pyval * pyval) :=
  needle fuel seq1 seq2 (Vint 100) (Vint (-1)) (Vint (-2)).

(** ** Alignments *)

(** [Aligned s1 s2 a1 a2]: the columns of [(a1, a2)], read first to last,
    spell [s1] on top and [s2] below, each column holding an item of both
    sequences, or an item of one of them over or under an inserted gap
    marker. *)
Inductive Aligned : list symbol -> list symbol ->
                    list symbol -> list symbol -> Prop :=
  | Aligned_nil : Aligned [] [] [] []
  | Aligned_both x y s1 s2 a1 a2 :
      Aligned s1 s2 a1 a2 -> Aligned (x :: s1) (y :: s2) (x :: a1) (y :: a2)
  | Aligned_gap2 x s1 s2 a1 a2 :
      Aligned s1 s2 a1 a2 -> Aligned (x :: s1) s2 (x :: a1) (gap_marker :: a2)
  | Aligned_gap1 y s1 s2 a1 a2 :
      Aligned s1 s2 a1 a2 -> Aligned s1 (y :: s2) (gap_marker :: a1) (y :: a2).

Definition is_gap (x : symbol) : bool := String.eqb x gap_marker.

(** Removing every gap marker from a sequence. *)
Definition remove_gaps (a : list symbol) : list symbol :=
  List.filter (fun x => negb (is_gap x)) a.

(** A sequence that holds no gap marker of its own. *)
Definition gap_free (s : list symbol) : Prop :=
  forallb (fun x => negb (is_gap x)) s = true.

(** The score of one column: [gap] when the column holds a gap marker,
    otherwise [match] for equal and [mismatch] for unequal symbols. *)
Definition col_score {R : Type} (m mm g : R) (x y : symbol) : R :=
  if is_gap x || is_gap y then g
  else if String.eqb x y then m else mm.

(** The score of an alignment: the sum over its columns. *)
Fixpoint align_score {R : Type} `{Number R} (m mm g : R)
    (a1 a2 : list symbol) : R :=
  match a1, a2 with
  | x :: a1', y :: a2' =>
      num_add (col_score m mm g x y) (align_score m mm g a1' a2')
  | _, _ => num_zero
  end.

(** No column holds a gap marker in both rows. *)
Fixpoint no_double_gap (a1 a2 : list symbol) : bool :=
  match a1, a2 with
  | x :: a1', y :: a2' => negb (is_gap x && is_gap y) && no_double_gap a1' a2'
  | _, _ => true
  end.

(** A global alignment of [s1] and [s2], as the specification defines it:
    two rows of equal length that give back [s1] and [s2] when the gap
    markers are removed, without a column of two gap markers. *)
Definition is_alignment (s1 s2 a1 a2 : list symbol) : Prop :=
  length a1 = length a2 /\
  remove_gaps a1 = s1 /\
  remove_gaps a2 = s2 /\
  no_double_gap a1 a2 = true.

(** The sequence type test of [needle]. *)
Definition is_seq (v : pyval) : Prop :=
  type_in (type_of v) [Tstr; Tlist; Ttuple] = true.

(** The number type test of [needle]. *)
Definition is_num (v : pyval) : Prop :=
  type_in (type_of v) [Tint; Tfloat] = true.

(** The arguments pass the five guards of [needle]. *)
Definition valid_args (seq1 seq2 match_ mismatch gap : pyval) : Prop :=
  is_seq seq1 /\ is_seq seq2 /\
  is_num match_ /\ is_num mismatch /\ is_num gap.

(** A call that never leaves its first [while] loop. *)
Definition diverges (seq1 seq2 match_ mismatch gap : pyval) : Prop :=
  forall fuel, needle fuel seq1 seq2 match_ mismatch gap = OutOfFuel.

(** The columns of an alignment, each with the items it takes from the
    two sequences: an item of both, an item of [seq1] over an inserted
    gap marker, or an item of [seq2] under one. *)
Inductive column : Type :=
  | Both (x y : symbol)
  | Gap2 (x : symbol)
  | Gap1 (y : symbol).

(** The upper and the lower row of a list of columns. *)
Definition row1 (cols : list column) : list symbol :=
  map (fun c => match c with Both x _ => x | Gap2 x => x | Gap1 _ => gap_marker end)
      cols.

Definition row2 (cols : list column) : list symbol :=
  map (fun c => match c with Both _ y => y | Gap2 _ => gap_marker | Gap1 y => y end)
      cols.

(** The items of the first and of the second sequence the columns hold. *)
Fixpoint src1 (cols : list column) : list symbol :=
  match cols with
  | [] => []
  | Both x _ :: cols' => x :: src1 cols'
  | Gap2 x :: cols' => x :: src1 cols'
  | Gap1 _ :: cols' => src1 cols'
  end.

Fixpoint src2 (cols : list column) : list symbol :=
  match cols with
  | [] => []
  | Both _ y :: cols' => y :: src2 cols'
  | Gap2 _ :: cols' => src2 cols'
  | Gap1 y :: cols' => y :: src2 cols'
  end.

(** The score the grid gives to a list of columns. *)
Fixpoint cols_score (m mm g : Z) (cols : list column) : Z :=
  match cols with
  | [] => 0
  | Both x y :: cols' =>
      (if String.eqb x y then m else mm) + cols_score m mm g cols'
  | Gap2 _ :: cols' => g + cols_score m mm g cols'
  | Gap1 _ :: cols' => g + cols_score m mm g cols'
  end%Z.

(** What the backtrace keeps true of its variables: the columns written
    so far, read in the order of the sequences, spell the part of [seq1]
    from index [j] on and the part of [seq2] from index [i] on; [Q] is
    what else is known of these columns at cell [(i, j)]. *)
Definition trace_inv (Q : list column -> nat -> nat -> Prop)
    (seq1 seq2 : list symbol) (t : trace) : Prop :=
  tr_i t <= length seq2 /\ tr_j t <= length seq1 /\
  exists cols,
    row1 cols = rev (align1 t) /\
    row2 cols = rev (align2 t) /\
    src1 cols = drop (tr_j t) seq1 /\
    src2 cols = drop (tr_i t) seq2 /\
    Q cols (tr_i t) (tr_j t).

(** The score of the columns written so far, added to cell [(i, j)], is
    the bottom-right cell. *)
Definition score_so_far (seq1 seq2 : list symbol) (m mm g : Z)
    (cols : list column) (i j : nat) : Prop :=
  (cols_score m mm g cols + nw_score seq1 seq2 m mm g i j
   = nw_score seq1 seq2 m mm g (length seq2) (length seq1))%Z.

(** No cell of the grid off row 0 and column 0 is a number that differs
    from itself, as [nan] does. *)
Definition cells_self_equal {R : Type} `{Number R} (seq1 seq2 : list symbol)
    (match_ mismatch gap : R) : Prop :=
  forall r c, 0 < r <= length seq2 -> 0 < c <= length seq1 ->
    let x := grid_get (score_grid seq1 seq2 match_ mismatch gap) r c in
    num_eqb x x = true.

(** The same for the arguments of [needle], in the arithmetic
    [align_lists] chooses for them. *)
Definition no_nan_cell (seq1 seq2 match_ mismatch gap : pyval) : Prop :=
  match match_, mismatch, gap with
  | Vint m, Vint mm, Vint g =>
      cells_self_equal (items seq1) (items seq2) m mm g
  | _, _, _ =>
      cells_self_equal (items seq1) (items seq2)
        (to_float match_) (to_float mismatch) (to_float gap)
  end.

(** Integer scores with which every number [needle] computes on
    [seq1] and [seq2] is an integer of magnitude at most [2^53]: the
    binary64 grid of the source then holds every cell, product and sum
    exactly, and is the grid over [Z]. *)
Definition scores_exact (seq1 seq2 : list symbol) (m mm g : Z) : Prop :=
  (Z.of_nat (length seq1 + length seq2 + 1)
   * Z.max (Z.abs m) (Z.max (Z.abs mm) (Z.abs g)) <= 2 ^ 53)%Z.

(** The backtrace of [needle(seq1, seq2)] comes through a cell at which
    its second and its third test both hold and the first does not. *)
Definition needle_meets_tie (fuel : nat) (seq1 seq2 : list symbol)
    (m mm g : Z) : bool :=
  tie_on_path seq1 seq2 m mm g fuel (score_grid seq1 seq2 m mm g)
              (Trace (length seq2) (length seq1) [] []).

(** One of the three scores is a [float]: the grid is then computed in
    binary64, whatever the two others are. *)
Definition some_float (match_ mismatch gap : pyval) : Prop :=
  type_of match_ = Tfloat \/ type_of mismatch = Tfloat \/ type_of gap = Tfloat.

(** A score that binary64 holds as it is: any [float], and an [int] of
    magnitude at most [2^53].  (A larger [int] is rounded when it meets
    a [float] cell, and one beyond the range of binary64 raises
    [OverflowError] there.) *)
Definition exact_score (v : pyval) : Prop :=
  match v with
  | Vint z => (Z.abs z <= 2 ^ 53)%Z
  | _ => True
  end.

(** The bottom-right cell of the binary64 grid, where the backtrace
    starts, differs from itself, as only [nan] does. *)
Definition start_cell_nan (seq1 seq2 match_ mismatch gap : pyval) : Prop :=
  let x := grid_get (score_grid (items seq1) (items seq2) (to_float match_)
                                (to_float mismatch) (to_float gap))
                    (length (items seq2)) (length (items seq1)) in
  PrimFloat.eqb x x = false.

(** ** [rev_comp] *)

(** [for x in l: acc = body(acc, x)], stopping at the first exception. *)
Fixpoint for_each {A B : Type} (body : A -> B -> outcome A) (acc : A)
    (l : list B) : outcome A :=
  match l with
  | [] => Return acc
  | x :: l' => acc' ← body acc x; for_each body acc' l'
  end.

(** The dictionary literal of [rev_comp]. *)
Definition rev_comp_lookup : gmap ascii ascii :=
  list_to_map
    [("A", "T"); ("T", "A"); ("C", "G"); ("G", "C");
     ("a", "t"); ("t", "a"); ("c", "g"); ("g", "c")]%char.

(** [d[k]] *)
Definition dict_getitem (d : gmap ascii ascii) (k : ascii) : outcome ascii :=
  match d !! k with
  | Some v => Return v
  | None => Raise (KeyError (String k EmptyString))
  end.

(** [c in s] for a character [c] *)
Definition char_in (c : ascii) (s : string) : bool :=
  existsb (Ascii.eqb c) (list_ascii_of_string s).

(** The body of the loop of [rev_comp]. *)
Definition rev_comp_body (rev_str : string) (i : ascii) : outcome string :=
  if char_in i "ATCGatcg" then
    c ← dict_getitem rev_comp_lookup i;
    Return (rev_str ++ String c EmptyString)%string
  else Return (rev_str ++ String i EmptyString)%string.

Definition rev_comp (string : pyval) : outcome pyval :=
  match string with
  | Vstr s =>
      rev_str ← for_each rev_comp_body EmptyString
                         (rev (list_ascii_of_string s));
      Return (Vstr rev_str)
  | _ =>
      Raise (TypeError ("string must be str, not "
                          ++ type_name (type_of string) ++ ".")%string)
  end.

(** The complement table in the words of the specification: A and T,
    C and G exchange, in either case; every other symbol stays. *)
Definition complement (c : ascii) : ascii :=
  match c with
  | "A" => "T" | "T" => "A" | "C" => "G" | "G" => "C"
  | "a" => "t" | "t" => "a" | "c" => "g" | "g" => "c"
  | _ => c
  end%char.

(** Reverse complement in the words of the specification: every symbol
    through the table, in reversed order. *)
Definition rev_comp_spec (s : string) : string :=
  string_of_list_ascii (map complement (rev (list_ascii_of_string s))).

(** [s.count(c)] for a character [c]: the number of its occurrences. *)
Definition count_char (c : ascii) (s : string) : nat :=
  count_occ ascii_dec (list_ascii_of_string s) c.

(** ** [hamming] *)

(** [s[i]] for an index the loop keeps within the string. *)
Definition char_at (s : list ascii) (i : nat) : ascii := nth i s Ascii.zero.

(** [s[1:]] *)
Definition slice_from_1 (s : list ascii) : list ascii := drop 1 s.

(** The body shared by the three loops of [hamming]: [dist] grows by one
    at an index beyond one of the strings, and at an index of both where
    they differ. *)
Definition hamming_body (string1 string2 : list ascii) (dist i : nat) : nat :=
  if (i <? length string1) && (i <? length string2) then
    if negb (Ascii.eqb (char_at string1 i) (char_at string2 i))
    then dist + 1 else dist
  else dist + 1.

(** [for i in range(max(len(string1), len(string2))): ...] *)
Definition hamming_loop (string1 string2 : list ascii) : nat :=
  foldl (hamming_body string1 string2) 0
        (seq 0 (Nat.max (length string1) (length string2))).

Definition hamming (string1 string2 : pyval) : outcome (nat * nat * nat) :=
  match string1, string2 with
  | Vstr s1, Vstr s2 =>
      let string1 := list_ascii_of_string s1 in
      let string2 := list_ascii_of_string s2 in
      let string1plus1 := slice_from_1 string1 in
      let string2plus1 := slice_from_1 string2 in
      let dist := hamming_loop string1 string2 in
      let distplus1 := hamming_loop string1plus1 string2 in
      let distminus1 := hamming_loop string1 string2plus1 in
      Return (dist, distplus1, distminus1)
  | Vstr _, _ =>
      Raise (TypeError ("Inputs must be str, not "
                          ++ type_name (type_of string2) ++ ".")%string)
  | _, _ =>
      Raise (TypeError ("Inputs must be str, not "
                          ++ type_name (type_of string1) ++ ".")%string)
  end.

(** The count in the words of the specification: the positions below
    the shorter length at which the two strings differ, plus the
    difference of the two lengths. *)
Definition mismatch_count (s1 s2 : list ascii) : nat :=
  length (List.filter
            (fun i => negb (Ascii.eqb (char_at s1 i) (char_at s2 i)))
            (seq 0 (Nat.min (length s1) (length s2))))
  + (Nat.max (length s1) (length s2) - Nat.min (length s1) (length s2)).

(** ** [find_indices] *)

(** [lst.index(element, start)], counting positions from [pos] on the
    part of the list still to be searched: the first index at or after
    [start] that holds [element], when there is one ([None] stands for
    the [ValueError] of Python). *)
Fixpoint list_index (lst : list symbol) (element : symbol) (start pos : nat)
  : option nat :=
  match lst with
  | [] => None
  | x :: lst' =>
      if (start <=? pos) && String.eqb x element then Some pos
      else list_index lst' element start (S pos)
  end.

(** [while True: try: offset = lst.index(element, offset+1)
    except ValueError: return result; result.append(offset)] *)
Fixpoint find_indices_loop (fuel : nat) (lst : list symbol)
    (element : symbol) (result : list nat) (offset : Z)
  : outcome (list nat) :=
  match fuel with
  | 0 => OutOfFuel
  | S fuel' =>
      match list_index lst element (Z.to_nat (offset + 1)) 0 with
      | None => Return result
      | Some k =>
          find_indices_loop fuel' lst element (result ++ [k]) (Z.of_nat k)
      end
  end.

Definition find_indices (fuel : nat) (lst : list symbol) (element : symbol)
  : outcome (list nat) :=
  find_indices_loop fuel lst element [] (-1).

(** The indices at which [element] occurs, in the words of the
    specification: every index of the list that holds it, in order. *)
Definition indices_of (lst : list symbol) (element : symbol) : list nat :=
  List.filter (fun k => String.eqb (item_at lst k) element)
              (seq 0 (length lst)).

(** The same, as a walk through the list from position [pos]. *)
Fixpoint indices_from (lst : list symbol) (element : symbol) (pos : nat)
  : list nat :=
  match lst with
  | [] => []
  | x :: lst' =>
      if String.eqb x element then pos :: indices_from lst' element (S pos)
      else indices_from lst' element (S pos)
  end.

(** * Properties *)

(** ** Loops over [range(n)] *)

Lemma foldl_range_inv {A} (P : nat -> A -> Prop) (f : A -> nat -> A) n a :
  P 0 a ->
  (forall k x, k < n -> P k x -> P (S k) (f x k)) ->
  P n (foldl f a (seq 0 n)).
Proof.
  intros H0 Hstep. induction n as [|n IH].
  - exact H0.
  - rewrite seq_S, foldl_app. simpl. apply Hstep; [lia|].
    apply IH. intros k x Hk. apply Hstep. lia.
Qed.

(** ** The grid as a two-dimensional array *)

Section GridFacts.
Context {R : Type} `{Number R}.

Lemma grid_ok_zeros rows cols :
  grid_ok rows cols (zeros rows cols : list (list R)).
Proof.
  split.
  - apply length_replicate.
  - intros r row Hr. apply lookup_replicate_1 in Hr as [-> _].
    apply length_replicate.
Qed.

Lemma grid_ok_set rows cols (g : list (list R)) r c v :
  grid_ok rows cols g -> grid_ok rows cols (grid_set g r c v).
Proof.
  intros [Hl Hrow]. split.
  - unfold grid_set. now rewrite length_alter.
  - intros r' row Hr'. unfold grid_set in Hr'.
    destruct (decide (r = r')) as [->|Hne].
    + rewrite list_lookup_alter_eq in Hr'.
      destruct (g !! r') as [row'|] eqn:E; simpl in Hr'; [|discriminate].
      injection Hr' as <-. rewrite length_insert. eauto.
    + rewrite list_lookup_alter_ne in Hr' by done. eauto.
Qed.

Lemma grid_get_set_eq rows cols (g : list (list R)) r c v :
  grid_ok rows cols g -> r < rows -> c < cols ->
  grid_get (grid_set g r c v) r c = v.
Proof.
  intros [Hl Hrow] Hr Hc. unfold grid_get, grid_set.
  rewrite list_lookup_alter_eq.
  destruct (g !! r) as [row|] eqn:E; simpl.
  - rewrite list_lookup_insert_eq; [done|]. rewrite (Hrow _ _ E). lia.
  - apply lookup_ge_None in E. lia.
Qed.

Lemma grid_get_set_ne g r c v r' c' :
  r <> r' \/ c <> c' ->
  grid_get (grid_set g r c v) r' c' = grid_get g r' c'.
Proof.
  intros Hne. unfold grid_get, grid_set.
  destruct (decide (r = r')) as [->|Hr].
  - rewrite list_lookup_alter_eq.
    destruct (g !! r') as [row|]; simpl; [|done].
    rewrite list_lookup_insert_ne; [done|]. destruct Hne; congruence.
  - now rewrite list_lookup_alter_ne.
Qed.
End GridFacts.

(** ** The filled grid is the score matrix of the specification *)

Section FillFacts.
Context {R : Type} `{Number R}.
Variables seq1 seq2 : list symbol.
Variables match_ mismatch gap : R.

Local Abbreviation n1 := (length seq1).
Local Abbreviation n2 := (length seq2).
Local Abbreviation nw := (nw_score seq1 seq2 match_ mismatch gap).

Lemma nw_score_row0 c : nw 0 c = num_mul_nat gap c.
Proof. reflexivity. Qed.

Lemma nw_score_col0 r : nw r 0 = num_mul_nat gap r.
Proof. destruct r; reflexivity. Qed.

Lemma nw_score_step r c :
  nw (S r) (S c) =
  py_max3 (num_add (nw r c) (pair_score seq1 seq2 match_ mismatch c r))
          (num_add (nw (S r) c) gap)
          (num_add (nw r (S c)) gap).
Proof. reflexivity. Qed.

Lemma init_row0_spec :
  let g := init_row0 seq1 gap (zeros (n2 + 1) (n1 + 1)) in
  grid_ok (n2 + 1) (n1 + 1) g /\
  forall c, c <= n1 -> grid_get g 0 c = nw 0 c.
Proof.
  unfold init_row0.
  set (P := fun (k : nat) (g : list (list R)) =>
              grid_ok (n2 + 1) (n1 + 1) g /\
              forall c, c < k -> grid_get g 0 c = nw 0 c).
  assert (HP : P (n1 + 1)
                 (foldl (fun g i => grid_set g 0 i (num_mul_nat gap i))
                        (zeros (n2 + 1) (n1 + 1)) (seq 0 (n1 + 1)))).
  { apply foldl_range_inv; unfold P.
    - split; [apply grid_ok_zeros|]. intros c Hc. lia.
    - intros k g Hk [Hok Hc]. split; [now apply grid_ok_set|].
      intros c Hlt. destruct (decide (c = k)) as [->|Hne].
      + erewrite grid_get_set_eq; eauto; lia.
      + rewrite grid_get_set_ne by (right; congruence). apply Hc. lia. }
  destruct HP as [Hok Hc]. split; [done|]. intros c Hle. apply Hc. lia.
Qed.

Lemma init_col0_spec :
  let g := init_col0 seq2 gap
             (init_row0 seq1 gap (zeros (n2 + 1) (n1 + 1))) in
  grid_ok (n2 + 1) (n1 + 1) g /\
  (forall c, c <= n1 -> grid_get g 0 c = nw 0 c) /\
  (forall r, r <= n2 -> grid_get g r 0 = nw r 0).
Proof.
  destruct init_row0_spec as [Hok0 Hrow0].
  unfold init_col0.
  set (g0 := init_row0 seq1 gap (zeros (n2 + 1) (n1 + 1))) in *.
  set (P := fun (k : nat) (g : list (list R)) =>
              grid_ok (n2 + 1) (n1 + 1) g /\
              (forall c, c <= n1 -> grid_get g 0 c = nw 0 c) /\
              forall r, r < k -> grid_get g r 0 = nw r 0).
  assert (HP : P (n2 + 1)
                 (foldl (fun g i => grid_set g i 0 (num_mul_nat gap i))
                        g0 (seq 0 (n2 + 1)))).
  { apply foldl_range_inv; unfold P.
    - split; [done|]. split; [done|]. intros r Hr. lia.
    - intros k g Hk (Hok & Hrow & Hcol).
      split; [now apply grid_ok_set|]. split.
      + intros c Hc. destruct (decide (k = 0 /\ c = 0)) as [[-> ->]|Hne].
        * erewrite grid_get_set_eq; eauto; lia.
        * rewrite grid_get_set_ne by lia. now apply Hrow.
      + intros r Hr. destruct (decide (r = k)) as [->|Hne].
        * erewrite grid_get_set_eq; eauto; try lia.
          now rewrite nw_score_col0.
        * rewrite grid_get_set_ne by (left; congruence). apply Hcol. lia. }
  destruct HP as (Hok & Hrow & Hcol).
  split; [done|]. split; [done|]. intros r Hr. apply Hcol. lia.
Qed.

(** The cells of column [i + 1] are written top to bottom, from cells
    of columns [i] and [i + 1] that already hold their final value. *)
Lemma fill_column_spec (g : list (list R)) i :
  i < n1 ->
  grid_ok (n2 + 1) (n1 + 1) g ->
  (forall c, c <= n1 -> grid_get g 0 c = nw 0 c) ->
  (forall r c, r <= n2 -> c <= i -> grid_get g r c = nw r c) ->
  let g' := foldl (fun g j => fill_cell seq1 seq2 match_ mismatch gap g i j)
                  g (seq 0 n2) in
  grid_ok (n2 + 1) (n1 + 1) g' /\
  (forall c, c <= n1 -> grid_get g' 0 c = nw 0 c) /\
  (forall r c, r <= n2 -> c <= S i -> grid_get g' r c = nw r c).
Proof.
  intros Hi Hok Hrow Hdone.
  set (P := fun (k : nat) (g : list (list R)) =>
              grid_ok (n2 + 1) (n1 + 1) g /\
              (forall c, c <= n1 -> grid_get g 0 c = nw 0 c) /\
              (forall r c, r <= n2 -> c <= i -> grid_get g r c = nw r c) /\
              forall r, r <= k -> grid_get g r (S i) = nw r (S i)).
  assert (HP : P n2 (foldl (fun g j =>
                              fill_cell seq1 seq2 match_ mismatch gap g i j)
                           g (seq 0 n2))).
  { apply foldl_range_inv; unfold P.
    - split; [done|]. split; [done|]. split; [done|].
      intros r Hr. assert (r = 0) as -> by lia. apply Hrow. lia.
    - intros k x Hk (Hokx & Hrowx & Hdonex & Hcolx). unfold fill_cell.
      split; [now apply grid_ok_set|]. rewrite !Nat.add_1_r.
      split; [|split].
      + intros c Hc. rewrite grid_get_set_ne by lia. now apply Hrowx.
      + intros r c Hr Hc. rewrite grid_get_set_ne by lia. now apply Hdonex.
      + intros r Hr. destruct (decide (r = S k)) as [->|Hne].
        * erewrite grid_get_set_eq; eauto; try lia.
          rewrite nw_score_step.
          rewrite (Hdonex k i), (Hdonex (S k) i), (Hcolx k) by lia.
          reflexivity.
        * rewrite grid_get_set_ne by (left; congruence). apply Hcolx. lia. }
  destruct HP as (Hok' & Hrow' & Hdone' & Hcol'). cbv zeta.
  split; [done|]. split; [done|]. intros r c Hr Hc.
  destruct (decide (c = S i)) as [->|Hne].
  - now apply Hcol'.
  - apply Hdone'; lia.
Qed.

(** Every cell of the grid the backtrace reads holds the score the
    specification gives it. *)
Lemma score_grid_spec r c :
  r <= n2 -> c <= n1 ->
  grid_get (score_grid seq1 seq2 match_ mismatch gap) r c = nw r c.
Proof.
  intros Hr Hc. unfold score_grid, fill.
  destruct init_col0_spec as (Hok & Hrow & Hcol).
  set (g1 := init_col0 seq2 gap
               (init_row0 seq1 gap (zeros (n2 + 1) (n1 + 1)))) in *.
  set (P := fun (k : nat) (g : list (list R)) =>
              grid_ok (n2 + 1) (n1 + 1) g /\
              (forall c, c <= n1 -> grid_get g 0 c = nw 0 c) /\
              forall r c, r <= n2 -> c <= k -> grid_get g r c = nw r c).
  assert (HP : P n1 (foldl (fun g i =>
                      foldl (fun g j =>
                               fill_cell seq1 seq2 match_ mismatch gap g i j)
                            g (seq 0 n2)) g1 (seq 0 n1))).
  { apply foldl_range_inv; unfold P.
    - split; [done|]. split; [done|]. intros r' c' Hr' Hc'.
      assert (c' = 0) as -> by lia. now apply Hcol.
    - intros k g Hk (Hokg & Hrowg & Hdoneg).
      now apply fill_column_spec. }
  destruct HP as (_ & _ & Hall). now apply Hall.
Qed.
End FillFacts.

(** X2. Whatever the kind of the scores, when the two fill loops are done
    every cell [(r, c)] of the grid, [r <= len(seq2)], [c <= len(seq1)],
    holds the value the recurrence of the specification gives it: row 0
    and column 0 the products [gap * c] and [gap * r], every other cell
    [max([diagonal + score, left + gap, up + gap])]. *)
Theorem score_grid_is_recurrence {R : Type} `{Number R}
    (seq1 seq2 : list symbol) (match_ mismatch gap : R) r c :
  r <= length seq2 -> c <= length seq1 ->
  let G := score_grid seq1 seq2 match_ mismatch gap in
  grid_get G 0 c = num_mul_nat gap c /\
  grid_get G r 0 = num_mul_nat gap r /\
  (r < length seq2 -> c < length seq1 ->
   grid_get G (S r) (S c)
   = py_max3 (num_add (grid_get G r c)
                      (pair_score seq1 seq2 match_ mismatch c r))
             (num_add (grid_get G (S r) c) gap)
             (num_add (grid_get G r (S c)) gap)).
Proof.
  intros Hr Hc G. subst G. split; [|split].
  - rewrite score_grid_spec by lia. reflexivity.
  - rewrite score_grid_spec by lia. apply nw_score_col0.
  - intros Hr' Hc'. rewrite !score_grid_spec by lia. apply nw_score_step.
Qed.

Lemma score_grid_is_recurrence_witness :
  let seq1 := chars "AB" in
  let seq2 := chars "BA" in
  let G := score_grid seq1 seq2 100%Z (-1)%Z (-2)%Z in
  grid_get G 0 1 = num_mul_nat (-2)%Z 1 /\
  grid_get G 1 0 = num_mul_nat (-2)%Z 1 /\
  (1 < length seq2 -> 1 < length seq1 ->
   grid_get G 2 2
   = py_max3 (num_add (grid_get G 1 1)
                      (pair_score seq1 seq2 100%Z (-1)%Z 1 1))
             (num_add (grid_get G 2 1) (-2)%Z)
             (num_add (grid_get G 1 2) (-2)%Z)).
Proof.
  apply (score_grid_is_recurrence (chars "AB") (chars "BA")
                                  100%Z (-1)%Z (-2)%Z 1 1);
    simpl; lia.
Defined.

(** ** The backtrace *)

Lemma drop_item_at (s : list symbol) k :
  k < length s -> drop k s = item_at s k :: drop (S k) s.
Proof.
  intros Hk. destruct (lookup_lt_is_Some_2 s k Hk) as [x Hx].
  unfold item_at. rewrite (nth_lookup_Some _ _ _ _ Hx).
  now apply drop_S.
Qed.

Lemma py_max3_cases {R : Type} `{Number R} (a b c : R) :
  py_max3 a b c = a \/ py_max3 a b c = b \/ py_max3 a b c = c.
Proof.
  unfold py_max3. cbv zeta.
  destruct (num_gtb b a); [destruct (num_gtb c b)|destruct (num_gtb c a)];
    auto.
Qed.

Lemma py_max3_Z (a b c : Z) :
  let x := py_max3 a b c in
  (x = a \/ x = b \/ x = c) /\ (a <= x /\ b <= x /\ c <= x)%Z.
Proof.
  unfold py_max3. change (@num_gtb Z Z_number) with Z.gtb. cbv zeta.
  destruct (Z.gtb_spec b a);
    [destruct (Z.gtb_spec c b)|destruct (Z.gtb_spec c a)]; lia.
Qed.

(** Puts the column [c] in front of the columns [cols] of an invariant
    whose four equations are [H1] to [H4]. *)
Ltac add_column c cols H1 H2 H3 H4 :=
  exists (c :: cols);
  cbn [tr_i tr_j align1 align2 row1 row2 src1 src2 map];
  rewrite !rev_app_distr; cbn [rev app];
  fold (row1 cols) (row2 cols); rewrite H1, H2, H3, H4;
  repeat split; auto; symmetry; apply drop_item_at; lia.

(** The backtrace over any kind of number, as long as every cell it
    visits equals itself; [Q] is carried along the path it takes. *)
Section TraceFacts.
Context {R : Type} `{Number R}.
Variables seq1 seq2 : list symbol.
Variables match_ mismatch gap : R.

Local Abbreviation n1 := (length seq1).
Local Abbreviation n2 := (length seq2).
Local Abbreviation nw := (nw_score seq1 seq2 match_ mismatch gap).
Local Abbreviation G := (score_grid seq1 seq2 match_ mismatch gap).

Hypothesis cells_ok : cells_self_equal seq1 seq2 match_ mismatch gap.

Variable Q : list column -> nat -> nat -> Prop.
Hypothesis Q_diagonal : forall cols i j,
  S i <= n2 -> S j <= n1 -> Q cols (S i) (S j) ->
  num_eqb (nw (S i) (S j))
          (num_add (nw i j) (pair_score seq1 seq2 match_ mismatch j i))
  = true ->
  Q (Both (item_at seq1 j) (item_at seq2 i) :: cols) i j.
Hypothesis Q_up : forall cols i j,
  S i <= n2 -> S j <= n1 -> Q cols (S i) (S j) ->
  num_eqb (nw (S i) (S j)) (num_add (nw (S i) j) gap) = true ->
  Q (Gap2 (item_at seq1 j) :: cols) (S i) j.
Hypothesis Q_left : forall cols i j,
  S i <= n2 -> S j <= n1 -> Q cols (S i) (S j) ->
  num_eqb (nw (S i) (S j)) (num_add (nw i (S j)) gap) = true ->
  Q (Gap1 (item_at seq2 i) :: cols) i (S j).
Hypothesis Q_row0 : forall cols j,
  S j <= n1 -> Q cols 0 (S j) -> Q (Gap2 (item_at seq1 j) :: cols) 0 j.
Hypothesis Q_col0 : forall cols i,
  S i <= n2 -> Q cols (S i) 0 -> Q (Gap1 (item_at seq2 i) :: cols) i 0.

Local Abbreviation inv := (trace_inv Q seq1 seq2).

(** One pass through the loop body takes one of the three branches. *)
Lemma trace_body_inv t :
  inv t -> 0 < tr_i t -> 0 < tr_j t ->
  inv (trace_body seq1 seq2 match_ mismatch gap G t) /\
  tr_i (trace_body seq1 seq2 match_ mismatch gap G t)
  + tr_j (trace_body seq1 seq2 match_ mismatch gap G t) < tr_i t + tr_j t.
Proof.
  destruct t as [i j a1 a2]. intros (Hi & Hj & cols & H1 & H2 & H3 & H4 & HQ).
  cbn [tr_i tr_j align1 align2] in *. intros Hi0 Hj0.
  destruct i as [|i]; [lia|]. destruct j as [|j]; [lia|].
  pose proof (cells_ok (S i) (S j) ltac:(lia) ltac:(lia)) as Hself.
  cbv zeta in Hself. rewrite score_grid_spec in Hself by lia.
  unfold trace_body. cbn [tr_i tr_j align1 align2].
  replace (S i - 1) with i by lia. replace (S j - 1) with j by lia.
  rewrite !score_grid_spec by lia.
  pose proof (Q_diagonal cols i j Hi Hj HQ) as Hd.
  pose proof (Q_up cols i j Hi Hj HQ) as Hu.
  pose proof (Q_left cols i j Hi Hj HQ) as Hl.
  rewrite nw_score_step in Hself, Hd, Hu, Hl |- *.
  set (d := num_add (nw i j) (pair_score seq1 seq2 match_ mismatch j i)) in *.
  set (u := num_add (nw (S i) j) gap) in *.
  set (l := num_add (nw i (S j)) gap) in *.
  pose proof (py_max3_cases d u l) as Hcase.
  remember (py_max3 d u l) as cur eqn:Hcur. clear Hcur.
  destruct (num_eqb cur d) eqn:Ed; [|destruct (num_eqb cur u) eqn:Eu;
    [|destruct (num_eqb cur l) eqn:El]].
  - split; [|cbn; lia]. split; [cbn; lia|]. split; [cbn; lia|].
    add_column (Both (item_at seq1 j) (item_at seq2 i)) cols H1 H2 H3 H4.
  - split; [|cbn; lia]. split; [cbn; lia|]. split; [cbn; lia|].
    add_column (Gap2 (item_at seq1 j)) cols H1 H2 H3 H4.
  - split; [|cbn; lia]. split; [cbn; lia|]. split; [cbn; lia|].
    add_column (Gap1 (item_at seq2 i)) cols H1 H2 H3 H4.
  - exfalso. destruct Hcase as [Hc|[Hc|Hc]]; congruence.
Qed.

(** The first loop ends, with a row or a column index at zero, as soon
    as the fuel covers the [i + j] passes it can make at most. *)
Lemma trace_loop_inv fuel t :
  inv t -> tr_i t + tr_j t <= fuel ->
  exists t', trace_loop seq1 seq2 match_ mismatch gap fuel G t = Some t' /\
             inv t' /\ (tr_i t' = 0 \/ tr_j t' = 0).
Proof.
  revert t. induction fuel as [|fuel IH]; intros t Hinv Hfuel.
  - exists t. simpl. replace (tr_i t) with 0 by lia. simpl. auto.
  - simpl. destruct (0 <? tr_i t) eqn:Ei; simpl.
    + destruct (0 <? tr_j t) eqn:Ej.
      * apply Nat.ltb_lt in Ei, Ej.
        destruct (trace_body_inv t Hinv Ei Ej) as [Hinv' Hlt].
        apply IH; [done|lia].
      * apply Nat.ltb_ge in Ej. exists t. split; [done|]. split; [done|lia].
    + apply Nat.ltb_ge in Ei. exists t. split; [done|]. split; [done|lia].
Qed.

Lemma finish_j_inv j a1 a2 :
  inv (Trace 0 j a1 a2) ->
  exists b1 b2, finish_j seq1 j a1 a2 = (b1, b2) /\ inv (Trace 0 0 b1 b2).
Proof.
  revert a1 a2. induction j as [|j IH]; intros a1 a2 Hinv.
  - exists a1, a2. auto.
  - simpl. apply IH.
    destruct Hinv as (Hi & Hj & cols & H1 & H2 & H3 & H4 & HQ).
    cbn [tr_i tr_j align1 align2] in *.
    split; [cbn; lia|]. split; [cbn; lia|].
    add_column (Gap2 (item_at seq1 j)) cols H1 H2 H3 H4.
Qed.

Lemma finish_i_inv i a1 a2 :
  inv (Trace i 0 a1 a2) ->
  exists b1 b2, finish_i seq2 i a1 a2 = (b1, b2) /\ inv (Trace 0 0 b1 b2).
Proof.
  revert a1 a2. induction i as [|i IH]; intros a1 a2 Hinv.
  - exists a1, a2. auto.
  - simpl. apply IH.
    destruct Hinv as (Hi & Hj & cols & H1 & H2 & H3 & H4 & HQ).
    cbn [tr_i tr_j align1 align2] in *.
    split; [cbn; lia|]. split; [cbn; lia|].
    add_column (Gap1 (item_at seq2 i)) cols H1 H2 H3 H4.
Qed.

(** The three loops and the reversal: [needle] returns, and what it
    returns is a list of columns that spells the two sequences. *)
Lemma needle_core_path fuel :
  Q [] n2 n1 ->
  n1 + n2 <= fuel ->
  exists cols,
    needle_core seq1 seq2 match_ mismatch gap fuel
    = Some (row1 cols, row2 cols) /\
    src1 cols = seq1 /\ src2 cols = seq2 /\ Q cols 0 0.
Proof.
  intros HQ0 Hfuel. unfold needle_core, backtrace.
  assert (Hstart : inv (Trace n2 n1 [] [])).
  { split; [done|]. split; [done|]. exists [].
    cbn [tr_i tr_j align1 align2]. rewrite !drop_all. auto. }
  destruct (trace_loop_inv fuel (Trace n2 n1 [] []) Hstart)
    as (t & -> & Hinv & Hz); [simpl; lia|].
  destruct t as [i j a1 a2]. cbn [tr_i tr_j align1 align2] in *.
  assert (exists b1 b2,
             (let '(c1, c2) := finish_j seq1 j a1 a2 in
              finish_i seq2 i c1 c2) = (b1, b2) /\
             inv (Trace 0 0 b1 b2)) as (b1 & b2 & Hfin & Hinv').
  { destruct Hz as [-> | ->].
    - destruct (finish_j_inv j a1 a2 Hinv) as (b1 & b2 & -> & Hb).
      exists b1, b2. auto.
    - simpl. now apply finish_i_inv. }
  destruct (finish_j seq1 j a1 a2) as [c1 c2]. rewrite Hfin.
  destruct Hinv' as (_ & _ & cols & H1 & H2 & H3 & H4 & HQ).
  cbn [tr_i tr_j align1 align2] in *.
  exists cols. rewrite H1, H2, H3, H4, !drop_0. auto.
Qed.
End TraceFacts.

(** On integer scores every cell equals itself, and the score of the
    columns on the path, added to the cell reached, stays the
    bottom-right cell. *)
Lemma needle_core_columns seq1 seq2 (m mm g : Z) fuel :
  length seq1 + length seq2 <= fuel ->
  exists cols,
    needle_core seq1 seq2 m mm g fuel = Some (row1 cols, row2 cols) /\
    src1 cols = seq1 /\ src2 cols = seq2 /\
    cols_score m mm g cols
    = nw_score seq1 seq2 m mm g (length seq2) (length seq1).
Proof.
  intros Hfuel.
  destruct (needle_core_path seq1 seq2 m mm g) with
    (Q := score_so_far seq1 seq2 m mm g) (fuel := fuel)
    as (cols & Hcore & Hs1 & Hs2 & HQ); unfold score_so_far in *.
  - intros r c _ _. apply Z.eqb_refl.
  - intros cols i j _ _ HQ Heq. apply Z.eqb_eq in Heq.
    change (@num_add Z Z_number) with Z.add in Heq.
    unfold pair_score in Heq. cbn [cols_score]. lia.
  - intros cols i j _ _ HQ Heq. apply Z.eqb_eq in Heq.
    change (@num_add Z Z_number) with Z.add in Heq. cbn [cols_score]. lia.
  - intros cols i j _ _ HQ Heq. apply Z.eqb_eq in Heq.
    change (@num_add Z Z_number) with Z.add in Heq. cbn [cols_score]. lia.
  - intros cols j _ HQ. rewrite !nw_score_row0 in *.
    change (@num_mul_nat Z Z_number g) with (fun i => (g * Z.of_nat i)%Z)
      in *.
    cbn [cols_score]. cbv beta in *. lia.
  - intros cols i _ HQ. rewrite !nw_score_col0 in *.
    change (@num_mul_nat Z Z_number g) with (fun i => (g * Z.of_nat i)%Z)
      in *.
    cbn [cols_score]. cbv beta in *. lia.
  - simpl. lia.
  - done.
  - exists cols. repeat split; try done. rewrite <- HQ.
    rewrite nw_score_row0.
    change (@num_mul_nat Z Z_number g 0) with (g * 0)%Z. lia.
Qed.

(** Over any kind of number: when cell equals itself, [needle] returns
    columns that spell the two sequences. *)
Lemma needle_core_aligned {R : Type} `{Number R} seq1 seq2
    (match_ mismatch gap : R) fuel :
  cells_self_equal seq1 seq2 match_ mismatch gap ->
  length seq1 + length seq2 <= fuel ->
  exists cols,
    needle_core seq1 seq2 match_ mismatch gap fuel
    = Some (row1 cols, row2 cols) /\
    src1 cols = seq1 /\ src2 cols = seq2.
Proof.
  intros Hcells Hfuel.
  destruct (needle_core_path seq1 seq2 match_ mismatch gap Hcells
              (fun _ _ _ => True)) with (fuel := fuel)
    as (cols & Hcore & Hs1 & Hs2 & _); auto.
  exists cols. auto.
Qed.

(** ** Columns, rows and alignments *)

Lemma row_lengths cols : length (row1 cols) = length (row2 cols).
Proof. unfold row1, row2. now rewrite !length_map. Qed.

Lemma cols_Aligned cols :
  Aligned (src1 cols) (src2 cols) (row1 cols) (row2 cols).
Proof.
  induction cols as [|[x y|x|y] cols IH]; simpl; now constructor.
Qed.

Lemma gap_free_cons x s :
  gap_free (x :: s) <-> is_gap x = false /\ gap_free s.
Proof.
  unfold gap_free; simpl. rewrite andb_true_iff, negb_true_iff. tauto.
Qed.

Lemma is_gap_marker : is_gap gap_marker = true.
Proof. reflexivity. Qed.

Lemma Aligned_remove_gaps1 s1 s2 a1 a2 :
  Aligned s1 s2 a1 a2 -> gap_free s1 -> remove_gaps a1 = s1.
Proof.
  induction 1 as [|x y s1 s2 a1 a2 _ IH|x s1 s2 a1 a2 _ IH|y s1 s2 a1 a2 _ IH];
    intros Hfree; simpl.
  - reflexivity.
  - apply gap_free_cons in Hfree as [-> Hfree]. simpl. now rewrite IH.
  - apply gap_free_cons in Hfree as [-> Hfree]. simpl. now rewrite IH.
  - now apply IH.
Qed.

Lemma Aligned_remove_gaps2 s1 s2 a1 a2 :
  Aligned s1 s2 a1 a2 -> gap_free s2 -> remove_gaps a2 = s2.
Proof.
  induction 1 as [|x y s1 s2 a1 a2 _ IH|x s1 s2 a1 a2 _ IH|y s1 s2 a1 a2 _ IH];
    intros Hfree; simpl.
  - reflexivity.
  - apply gap_free_cons in Hfree as [-> Hfree]. simpl. now rewrite IH.
  - now apply IH.
  - apply gap_free_cons in Hfree as [-> Hfree]. simpl. now rewrite IH.
Qed.

Lemma Aligned_no_double_gap s1 s2 a1 a2 :
  Aligned s1 s2 a1 a2 -> gap_free s1 -> gap_free s2 ->
  no_double_gap a1 a2 = true.
Proof.
  induction 1 as [|x y s1 s2 a1 a2 _ IH|x s1 s2 a1 a2 _ IH|y s1 s2 a1 a2 _ IH];
    intros Hf1 Hf2; simpl.
  - reflexivity.
  - apply gap_free_cons in Hf1 as [-> Hf1].
    apply gap_free_cons in Hf2 as [_ Hf2]. simpl. now apply IH.
  - apply gap_free_cons in Hf1 as [-> Hf1]. simpl. now apply IH.
  - apply gap_free_cons in Hf2 as [-> Hf2]. simpl. now apply IH.
Qed.

(** On sequences without a gap marker of their own, the score read off
    the two rows is the score of the columns. *)
Lemma cols_score_align m mm g cols :
  gap_free (src1 cols) -> gap_free (src2 cols) ->
  align_score m mm g (row1 cols) (row2 cols) = cols_score m mm g cols.
Proof.
  induction cols as [|[x y|x|y] cols IH]; simpl; intros Hf1 Hf2.
  - reflexivity.
  - apply gap_free_cons in Hf1 as [Hx Hf1].
    apply gap_free_cons in Hf2 as [Hy Hf2].
    unfold col_score. rewrite Hx, Hy. simpl. now rewrite IH.
  - apply gap_free_cons in Hf1 as [Hx Hf1].
    unfold col_score. rewrite is_gap_marker, orb_true_r. now rewrite IH.
  - apply gap_free_cons in Hf2 as [Hy Hf2].
    unfold col_score. rewrite is_gap_marker. simpl. now rewrite IH.
Qed.

Lemma align_score_snoc m mm g a1 a2 x y :
  length a1 = length a2 ->
  align_score m mm g (a1 ++ [x]) (a2 ++ [y])
  = (align_score m mm g a1 a2 + col_score m mm g x y)%Z.
Proof.
  revert a2. induction a1 as [|u a1 IH]; intros [|v a2] Hlen;
    simpl in *; try discriminate.
  - lia.
  - rewrite IH by congruence. lia.
Qed.

Lemma no_double_gap_snoc a1 a2 x y :
  length a1 = length a2 ->
  no_double_gap (a1 ++ [x]) (a2 ++ [y])
  = no_double_gap a1 a2 && negb (is_gap x && is_gap y).
Proof.
  revert a2. induction a1 as [|u a1 IH]; intros [|v a2] Hlen;
    simpl in *; try discriminate.
  - now rewrite andb_true_r.
  - rewrite IH by congruence. now rewrite andb_assoc.
Qed.

Lemma remove_gaps_snoc a x :
  remove_gaps (a ++ [x])
  = remove_gaps a ++ (if is_gap x then [] else [x]).
Proof.
  unfold remove_gaps. rewrite List.filter_app. simpl.
  now destruct (is_gap x).
Qed.

Lemma take_snoc_inv (s l : list symbol) x c :
  c <= length s -> l ++ [x] = take c s ->
  exists c', c = S c' /\ l = take c' s /\ x = item_at s c'.
Proof.
  intros Hc Heq.
  assert (Hlen : length l + 1 = c).
  { rewrite <- (length_take_le s c Hc), <- Heq, length_app. reflexivity. }
  destruct c as [|c']; [lia|]. exists c'. split; [done|].
  destruct (lookup_lt_is_Some_2 s c') as [z Hz]; [lia|].
  rewrite (take_S_r _ _ _ Hz) in Heq.
  apply app_inj_tail in Heq as [-> ->]. split; [done|].
  unfold item_at. now rewrite (nth_lookup_Some _ _ _ _ Hz).
Qed.

(** ** The bottom-right cell bounds the score of every alignment *)

Section Optimal.
Variables seq1 seq2 : list symbol.
Variables m mm g : Z.

Local Abbreviation n1 := (length seq1).
Local Abbreviation n2 := (length seq2).
Local Abbreviation nw := (nw_score seq1 seq2 m mm g).

Lemma nw_ge_diag r c :
  (nw r c + pair_score seq1 seq2 m mm c r <= nw (S r) (S c))%Z.
Proof.
  rewrite nw_score_step. change (@num_add Z Z_number) with Z.add.
  match goal with |- (_ <= py_max3 ?a ?b ?c)%Z =>
    pose proof (py_max3_Z a b c) as [_ Hle] end.
  cbv zeta in Hle. lia.
Qed.

Lemma nw_ge_left r c : (nw r c + g <= nw r (S c))%Z.
Proof.
  destruct r as [|r].
  - rewrite !nw_score_row0.
    change (@num_mul_nat Z Z_number g) with (fun i => (g * Z.of_nat i)%Z).
    simpl. lia.
  - rewrite nw_score_step. change (@num_add Z Z_number) with Z.add.
    match goal with |- (_ <= py_max3 ?a ?b ?c)%Z =>
      pose proof (py_max3_Z a b c) as [_ Hle] end.
    cbv zeta in Hle. lia.
Qed.

Lemma nw_ge_up r c : (nw r c + g <= nw (S r) c)%Z.
Proof.
  destruct c as [|c].
  - rewrite !nw_score_col0.
    change (@num_mul_nat Z Z_number g) with (fun i => (g * Z.of_nat i)%Z).
    simpl. lia.
  - rewrite nw_score_step. change (@num_add Z Z_number) with Z.add.
    match goal with |- (_ <= py_max3 ?a ?b ?c)%Z =>
      pose proof (py_max3_Z a b c) as [_ Hle] end.
    cbv zeta in Hle. lia.
Qed.

(** Any two rows that spell a prefix of [seq1] and a prefix of [seq2]
    score at most the cell of these prefixes: induction on the number of
    columns, looking at the last one. *)
Lemma nw_upper n :
  forall b1 b2 r c,
    length b1 = n -> length b2 = n ->
    r <= n2 -> c <= n1 ->
    no_double_gap b1 b2 = true ->
    remove_gaps b1 = take c seq1 ->
    remove_gaps b2 = take r seq2 ->
    (align_score m mm g b1 b2 <= nw r c)%Z.
Proof.
  induction n as [|n IH]; intros b1 b2 r c Hl1 Hl2 Hr Hc Hnd Hs1 Hs2.
  - apply nil_length_inv in Hl1, Hl2. subst b1 b2. simpl in *.
    assert (c = 0) as ->.
    { rewrite <- (length_take_le seq1 c Hc), <- Hs1. reflexivity. }
    assert (r = 0) as ->.
    { rewrite <- (length_take_le seq2 r Hr), <- Hs2. reflexivity. }
    rewrite nw_score_row0.
    change (@num_mul_nat Z Z_number g 0) with (g * 0)%Z. lia.
  - destruct (exists_last (l := b1)) as (b1' & x & ->);
      [intros ->; discriminate|].
    destruct (exists_last (l := b2)) as (b2' & y & ->);
      [intros ->; discriminate|].
    rewrite length_app in Hl1, Hl2. simpl in Hl1, Hl2.
    assert (Hl1' : length b1' = n) by lia.
    assert (Hl2' : length b2' = n) by lia.
    rewrite align_score_snoc by congruence.
    rewrite no_double_gap_snoc in Hnd by congruence.
    apply andb_true_iff in Hnd as [Hnd Hxy].
    rewrite remove_gaps_snoc in Hs1, Hs2. unfold col_score.
    destruct (is_gap x) eqn:Ex, (is_gap y) eqn:Ey; simpl in *.
    + discriminate.
    + rewrite app_nil_r in Hs1.
      apply take_snoc_inv in Hs2 as (r' & -> & Hs2 & ->); [|done].
      specialize (IH b1' b2' r' c Hl1' Hl2' ltac:(lia) Hc Hnd Hs1 Hs2).
      pose proof (nw_ge_up r' c). lia.
    + rewrite app_nil_r in Hs2.
      apply take_snoc_inv in Hs1 as (c' & -> & Hs1 & ->); [|done].
      specialize (IH b1' b2' r c' Hl1' Hl2' Hr ltac:(lia) Hnd Hs1 Hs2).
      pose proof (nw_ge_left r c'). lia.
    + apply take_snoc_inv in Hs1 as (c' & -> & Hs1 & ->); [|done].
      apply take_snoc_inv in Hs2 as (r' & -> & Hs2 & ->); [|done].
      specialize (IH b1' b2' r' c' Hl1' Hl2' ltac:(lia) ltac:(lia)
                     Hnd Hs1 Hs2).
      pose proof (nw_ge_diag r' c') as Hd. unfold pair_score in Hd. lia.
Qed.

(** No alignment of the two sequences scores more than the
    bottom-right cell. *)
Lemma nw_optimal b1 b2 :
  is_alignment seq1 seq2 b1 b2 ->
  (align_score m mm g b1 b2 <= nw n2 n1)%Z.
Proof.
  intros (Hlen & Hs1 & Hs2 & Hnd).
  apply (nw_upper (length b1)); try done.
  - now rewrite firstn_all.
  - now rewrite firstn_all.
Qed.
End Optimal.

(** ** From the core to [needle] *)

Lemma join_cons_single c a :
  join (String c EmptyString :: a) = String c (join a).
Proof. destruct a; reflexivity. Qed.

Lemma chars_cons c s : chars (String c s) = String c EmptyString :: chars s.
Proof. reflexivity. Qed.

Lemma join_chars s : join (chars s) = s.
Proof.
  induction s as [|c s IH]; [reflexivity|].
  now rewrite chars_cons, join_cons_single, IH.
Qed.

Lemma chars_single s : Forall single (chars s).
Proof.
  induction s as [|c s IH]; [constructor|].
  rewrite chars_cons. constructor; [now exists c|exact IH].
Qed.

Lemma chars_join a : Forall single a -> chars (join a) = a.
Proof.
  induction 1 as [|x a [c ->] _ IH]; [reflexivity|].
  now rewrite join_cons_single, chars_cons, IH.
Qed.

Lemma row1_single cols : Forall single (src1 cols) -> Forall single (row1 cols).
Proof.
  induction cols as [|[x y|x|y] cols IH]; simpl; intros Hs.
  - constructor.
  - inversion Hs; subst. constructor; auto.
  - inversion Hs; subst. constructor; auto.
  - constructor; [now exists "-"%char|auto].
Qed.

Lemma row2_single cols : Forall single (src2 cols) -> Forall single (row2 cols).
Proof.
  induction cols as [|[x y|x|y] cols IH]; simpl; intros Hs.
  - constructor.
  - inversion Hs; subst. constructor; auto.
  - constructor; [now exists "-"%char|auto].
  - inversion Hs; subst. constructor; auto.
Qed.

(** The items of what [needle] returns are the rows it built. *)
Lemma items_wrap v1 v2 a :
  (is_str v1 = true -> is_str v2 = true -> Forall single a) ->
  items (wrap v1 v2 a) = a.
Proof.
  intros Hs. unfold wrap.
  destruct (is_str v1) eqn:E1, (is_str v2) eqn:E2; simpl; try reflexivity.
  apply chars_join. now apply Hs.
Qed.

Lemma is_str_items_single v : is_str v = true -> Forall single (items v).
Proof. destruct v; try discriminate. intros _. apply chars_single. Qed.

Lemma check_args_ok v1 v2 vm vmm vg :
  is_seq v1 -> is_seq v2 -> is_num vm -> is_num vmm -> is_num vg ->
  check_args v1 v2 vm vmm vg = Return tt.
Proof.
  unfold is_seq, is_num, check_args, check_seq, check_num.
  intros -> -> -> -> ->. reflexivity.
Qed.

(** With integer scores [needle] returns two rows of columns that spell
    its two arguments and score the bottom-right cell of its grid. *)
Lemma needle_int_columns v1 v2 m mm g fuel :
  is_seq v1 -> is_seq v2 ->
  length (items v1) + length (items v2) <= fuel ->
  exists cols,
    needle fuel v1 v2 (Vint m) (Vint mm) (Vint g)
    = Return (wrap v1 v2 (row1 cols), wrap v1 v2 (row2 cols)) /\
    items (wrap v1 v2 (row1 cols)) = row1 cols /\
    items (wrap v1 v2 (row2 cols)) = row2 cols /\
    src1 cols = items v1 /\ src2 cols = items v2 /\
    cols_score m mm g cols
    = nw_score (items v1) (items v2) m mm g
               (length (items v2)) (length (items v1)) /\
    needle_core (items v1) (items v2) m mm g fuel
    = Some (row1 cols, row2 cols).
Proof.
  intros H1 H2 Hfuel.
  destruct (needle_core_columns (items v1) (items v2) m mm g fuel Hfuel)
    as (cols & Hcore & Hs1 & Hs2 & Hsc).
  exists cols. unfold needle.
  rewrite check_args_ok by (done || reflexivity). simpl.
  rewrite Hcore. split; [reflexivity|].
  split; [|split; [|done]].
  - apply items_wrap. intros E1 _. apply row1_single. rewrite Hs1.
    now apply is_str_items_single.
  - apply items_wrap. intros _ E2. apply row2_single. rewrite Hs2.
    now apply is_str_items_single.
Qed.

Lemma needle_core_backtrace {R : Type} `{Number R} s1 s2 (m mm g : R)
    fuel a1 a2 :
  needle_core s1 s2 m mm g fuel = Some (a1, a2) ->
  exists b1 b2, backtrace s1 s2 m mm g fuel = Some (b1, b2) /\
                a1 = rev b1 /\ a2 = rev b2.
Proof.
  unfold needle_core. destruct (backtrace s1 s2 m mm g fuel) as [[b1 b2]|];
    [|discriminate].
  intros [= <- <-]. eauto.
Qed.

Lemma is_gap_eq x : is_gap x = true <-> x = gap_marker.
Proof. unfold is_gap. apply String.eqb_eq. Qed.

Lemma no_double_gap_lookup a1 a2 k x y :
  no_double_gap a1 a2 = true ->
  a1 !! k = Some x -> a2 !! k = Some y ->
  ~ (x = gap_marker /\ y = gap_marker).
Proof.
  revert a2 k. induction a1 as [|u a1 IH]; intros [|v a2] [|k] Hnd Hx Hy;
    simpl in *; try discriminate.
  - injection Hx as ->. injection Hy as ->.
    apply andb_true_iff in Hnd as [Hnd _]. apply negb_true_iff in Hnd.
    intros [Hgx Hgy]. apply is_gap_eq in Hgx, Hgy.
    rewrite Hgx, Hgy in Hnd. discriminate.
  - apply andb_true_iff in Hnd as [_ Hnd]. eauto.
Qed.

(** ** The claims about [needle] *)

(** C3. For all sequences (and all integer scores, the defaults among
    them) [needle] returns two aligned sequences of equal length, and it
    returns them first column first: they are the reversals of the two
    lists the backtrace built last column first, so that their columns,
    read from left to right, spell [seq1] and [seq2] from their first
    item to their last. *)
Theorem needle_equal_length_left_to_right v1 v2 m mm g fuel :
  is_seq v1 -> is_seq v2 ->
  length (items v1) + length (items v2) <= fuel ->
  exists a1 a2 b1 b2,
    needle fuel v1 v2 (Vint m) (Vint mm) (Vint g) = Return (a1, a2) /\
    length (items a1) = length (items a2) /\
    backtrace (items v1) (items v2) m mm g fuel = Some (b1, b2) /\
    items a1 = rev b1 /\ items a2 = rev b2 /\
    Aligned (items v1) (items v2) (items a1) (items a2).
Proof.
  intros H1 H2 Hfuel.
  destruct (needle_int_columns v1 v2 m mm g fuel H1 H2 Hfuel)
    as (cols & Hret & Hi1 & Hi2 & Hs1 & Hs2 & _ & Hcore).
  destruct (needle_core_backtrace _ _ _ _ _ _ _ _ Hcore)
    as (b1 & b2 & Hbt & Hr1 & Hr2).
  exists (wrap v1 v2 (row1 cols)), (wrap v1 v2 (row2 cols)), b1, b2.
  rewrite Hi1, Hi2. repeat split; try done.
  - apply row_lengths.
  - rewrite <- Hs1, <- Hs2. apply cols_Aligned.
Qed.

Lemma needle_equal_length_left_to_right_witness :
  exists a1 a2 b1 b2,
    needle 4 (Vstr "AB") (Vstr "BA") (Vint 100) (Vint (-1)) (Vint (-2))
    = Return (a1, a2) /\
    length (items a1) = length (items a2) /\
    backtrace (items (Vstr "AB")) (items (Vstr "BA")) 100%Z (-1)%Z (-2)%Z 4
    = Some (b1, b2) /\
    items a1 = rev b1 /\ items a2 = rev b2 /\
    Aligned (items (Vstr "AB")) (items (Vstr "BA")) (items a1) (items a2).
Proof.
  apply needle_equal_length_left_to_right;
    [reflexivity | reflexivity | simpl; lia].
Defined.

(** C2, as the code has it.  When [seq1] holds no gap marker of its own,
    removing the gap markers from the first aligned sequence gives back
    [seq1], item for item and in order; the same holds of [seq2] and the
    second aligned sequence. *)
Theorem needle_remove_gaps v1 v2 m mm g fuel :
  is_seq v1 -> is_seq v2 ->
  length (items v1) + length (items v2) <= fuel ->
  exists a1 a2,
    needle fuel v1 v2 (Vint m) (Vint mm) (Vint g) = Return (a1, a2) /\
    (gap_free (items v1) -> remove_gaps (items a1) = items v1) /\
    (gap_free (items v2) -> remove_gaps (items a2) = items v2).
Proof.
  intros H1 H2 Hfuel.
  destruct (needle_int_columns v1 v2 m mm g fuel H1 H2 Hfuel)
    as (cols & Hret & Hi1 & Hi2 & Hs1 & Hs2 & _).
  exists (wrap v1 v2 (row1 cols)), (wrap v1 v2 (row2 cols)).
  rewrite Hi1, Hi2, <- Hs1, <- Hs2. split; [done|]. split.
  - apply (Aligned_remove_gaps1 _ _ _ _ (cols_Aligned cols)).
  - apply (Aligned_remove_gaps2 _ _ _ _ (cols_Aligned cols)).
Qed.

Lemma needle_remove_gaps_witness :
  exists a1 a2,
    needle 14 (Vstr "GATTACA") (Vstr "GCATGCU")
           (Vint 100) (Vint (-1)) (Vint (-2)) = Return (a1, a2) /\
    (gap_free (items (Vstr "GATTACA")) ->
     remove_gaps (items a1) = items (Vstr "GATTACA")) /\
    (gap_free (items (Vstr "GCATGCU")) ->
     remove_gaps (items a2) = items (Vstr "GCATGCU")).
Proof.
  apply needle_remove_gaps; [reflexivity | reflexivity | simpl; lia].
Defined.

(** C2 as stated fails on a sequence that holds the gap marker: the
    ['-'] of ["A-"] is removed with the inserted ones. *)
Lemma needle_remove_gaps_marker_input :
  needle_default 3 (Vstr "A-") (Vstr "A") = Return (Vstr "A-", Vstr "A-") /\
  remove_gaps (items (Vstr "A-")) = items (Vstr "A") /\
  items (Vstr "A") <> items (Vstr "A-").
Proof. repeat split; try reflexivity. discriminate. Qed.

(** C4, as the code has it.  When neither sequence holds a gap marker of
    its own, no column of the returned alignment has the gap marker in
    both rows. *)
Theorem needle_no_double_gap v1 v2 m mm g fuel :
  is_seq v1 -> is_seq v2 ->
  gap_free (items v1) -> gap_free (items v2) ->
  length (items v1) + length (items v2) <= fuel ->
  exists a1 a2,
    needle fuel v1 v2 (Vint m) (Vint mm) (Vint g) = Return (a1, a2) /\
    forall k x y,
      items a1 !! k = Some x -> items a2 !! k = Some y ->
      ~ (x = gap_marker /\ y = gap_marker).
Proof.
  intros H1 H2 Hf1 Hf2 Hfuel.
  destruct (needle_int_columns v1 v2 m mm g fuel H1 H2 Hfuel)
    as (cols & Hret & Hi1 & Hi2 & Hs1 & Hs2 & _).
  exists (wrap v1 v2 (row1 cols)), (wrap v1 v2 (row2 cols)).
  rewrite Hi1, Hi2. split; [done|]. intros k x y.
  apply no_double_gap_lookup.
  apply (Aligned_no_double_gap _ _ _ _ (cols_Aligned cols)); congruence.
Qed.

Lemma needle_no_double_gap_witness :
  exists a1 a2,
    needle 4 (Vstr "AB") (Vstr "BA") (Vint 100) (Vint (-1)) (Vint (-2))
    = Return (a1, a2) /\
    forall k x y,
      items a1 !! k = Some x -> items a2 !! k = Some y ->
      ~ (x = gap_marker /\ y = gap_marker).
Proof.
  apply needle_no_double_gap;
    [reflexivity | reflexivity | reflexivity | reflexivity | simpl; lia].
Defined.

(** C4 as stated fails on sequences that hold the gap marker: the only
    column of [needle("-", "-")] has it in both rows. *)
Lemma needle_double_gap_marker_input :
  needle_default 2 (Vstr "-") (Vstr "-") = Return (Vstr "-", Vstr "-") /\
  items (Vstr "-") !! 0 = Some gap_marker.
Proof. split; reflexivity. Qed.

Lemma py_max3_Z_max (a b c : Z) : py_max3 a b c = Z.max a (Z.max b c).
Proof. pose proof (py_max3_Z a b c) as H. cbv zeta in H. lia. Qed.

Lemma cols_is_alignment cols :
  gap_free (src1 cols) -> gap_free (src2 cols) ->
  is_alignment (src1 cols) (src2 cols) (row1 cols) (row2 cols).
Proof.
  intros Hf1 Hf2. pose proof (cols_Aligned cols) as Ha.
  split; [apply row_lengths|]. split; [|split].
  - now apply (Aligned_remove_gaps1 _ _ _ _ Ha).
  - now apply (Aligned_remove_gaps2 _ _ _ _ Ha).
  - now apply (Aligned_no_double_gap _ _ _ _ Ha).
Qed.

(** C1, as the code has it.  For sequences that hold no gap marker of
    their own and integer scores, the alignment [needle] returns is
    optimal: it is a global alignment of the two sequences, its score
    (per column [gap] when the column holds a gap marker, else [match]
    for equal and [mismatch] for unequal symbols) is the bottom-right
    cell of the grid, and no global alignment of the two sequences
    scores more.  Row 0 and column 0 of the grid hold the cumulative gap
    penalties, and every other cell is the largest of diagonal +
    match-or-mismatch, left + gap and up + gap. *)
Theorem needle_optimal_score v1 v2 m mm g fuel :
  is_seq v1 -> is_seq v2 ->
  gap_free (items v1) -> gap_free (items v2) ->
  length (items v1) + length (items v2) <= fuel ->
  let seq1 := items v1 in
  let seq2 := items v2 in
  let G := score_grid seq1 seq2 m mm g in
  exists a1 a2,
    needle fuel v1 v2 (Vint m) (Vint mm) (Vint g) = Return (a1, a2) /\
    is_alignment seq1 seq2 (items a1) (items a2) /\
    align_score m mm g (items a1) (items a2)
    = grid_get G (length seq2) (length seq1) /\
    (forall b1 b2,
        is_alignment seq1 seq2 b1 b2 ->
        (align_score m mm g b1 b2
         <= grid_get G (length seq2) (length seq1))%Z) /\
    (forall c, c <= length seq1 ->
               grid_get G 0 c = (g * Z.of_nat c)%Z) /\
    (forall r, r <= length seq2 ->
               grid_get G r 0 = (g * Z.of_nat r)%Z) /\
    (forall r c, r < length seq2 -> c < length seq1 ->
       grid_get G (S r) (S c)
       = Z.max (grid_get G r c
                + (if String.eqb (item_at seq1 c) (item_at seq2 r)
                   then m else mm))%Z
               (Z.max (grid_get G (S r) c + g)%Z
                      (grid_get G r (S c) + g)%Z)).
Proof.
  intros H1 H2 Hf1 Hf2 Hfuel seq1 seq2 G. subst seq1 seq2 G.
  destruct (needle_int_columns v1 v2 m mm g fuel H1 H2 Hfuel)
    as (cols & Hret & Hi1 & Hi2 & Hs1 & Hs2 & Hsc & _).
  exists (wrap v1 v2 (row1 cols)), (wrap v1 v2 (row2 cols)).
  rewrite Hi1, Hi2.
  split; [done|]. split; [|split; [|split; [|split; [|split]]]].
  - rewrite <- Hs1, <- Hs2. apply cols_is_alignment; congruence.
  - rewrite score_grid_spec by done. rewrite <- Hsc.
    apply cols_score_align; congruence.
  - intros b1 b2 Hb. rewrite score_grid_spec by done.
    now apply nw_optimal.
  - intros c Hc. rewrite score_grid_spec by (done || lia). reflexivity.
  - intros r Hr. rewrite score_grid_spec by (done || lia).
    now rewrite nw_score_col0.
  - intros r c Hr Hc. rewrite !score_grid_spec by lia.
    rewrite nw_score_step. apply py_max3_Z_max.
Qed.

Lemma needle_optimal_score_witness :
  exists a1 a2,
    needle 14 (Vstr "GATTACA") (Vstr "GCATGCU") (Vint 1) (Vint (-1))
           (Vint (-1)) = Return (a1, a2) /\
    is_alignment (chars "GATTACA") (chars "GCATGCU") (items a1) (items a2) /\
    align_score 1%Z (-1)%Z (-1)%Z (items a1) (items a2)
    = grid_get (score_grid (chars "GATTACA") (chars "GCATGCU")
                           1 (-1) (-1))%Z 7 7.
Proof.
  destruct (needle_optimal_score (Vstr "GATTACA") (Vstr "GCATGCU")
              1 (-1) (-1) 14) as (a1 & a2 & Hret & Hal & Hsc & _);
    [reflexivity | reflexivity | reflexivity | reflexivity | simpl; lia |].
  exists a1, a2. auto.
Defined.

(** C1 as stated fails on a sequence that holds the gap marker.  The
    only column of [needle("-", "A")] comes from the diagonal, so the
    bottom-right cell is [mismatch = -1], while the column, which holds
    a gap marker, scores [gap = -2]. *)
Lemma needle_score_gap_marker_input :
  needle_default 2 (Vstr "-") (Vstr "A") = Return (Vstr "-", Vstr "A") /\
  align_score 100%Z (-1)%Z (-2)%Z (items (Vstr "-")) (items (Vstr "A")) = (-2)%Z /\
  grid_get (score_grid (chars "-") (chars "A") 100 (-1) (-2))%Z 1 1
  = (-1)%Z.
Proof. repeat split; reflexivity. Qed.

(** With a [float] score the sum over the columns is rounded at every
    step and need not be the cell, which row 0 and column 0 compute as
    a product: with [gap = 0.1] the ten columns of
    [needle("", "AAAAAAAAAA")] sum to [0.9999999999999999], the cell
    [grid[10][0]] is [0.1 * 10 = 1.0]. *)
Lemma needle_score_float_rounding :
  let gap := 0x1.999999999999ap-4%float in
  needle 10 (Vstr EmptyString) (Vstr "AAAAAAAAAA")
         (Vint 100) (Vint (-1)) (Vfloat gap)
  = Return (Vstr "----------", Vstr "AAAAAAAAAA") /\
  PrimFloat.eqb
    (align_score (float_of_Z 100) (float_of_Z (-1)) gap
                 (chars "----------") (chars "AAAAAAAAAA"))
    (grid_get (score_grid [] (chars "AAAAAAAAAA")
                          (float_of_Z 100) (float_of_Z (-1)) gap) 10 0)
  = false.
Proof. split; vm_compute; reflexivity. Qed.

(** ** Exchanging the two sequences *)

Lemma pair_score_swap s1 s2 (m mm : Z) c r :
  pair_score s2 s1 m mm r c = pair_score s1 s2 m mm c r.
Proof. unfold pair_score. now rewrite String.eqb_sym. Qed.

(** The grid of [needle(seq2, seq1)] is the transpose of the grid of
    [needle(seq1, seq2)]. *)
Lemma nw_score_swap s1 s2 (m mm g : Z) r :
  forall c, nw_score s2 s1 m mm g c r = nw_score s1 s2 m mm g r c.
Proof.
  induction r as [|r IHr]; intros c.
  - now rewrite nw_score_col0, nw_score_row0.
  - induction c as [|c IHc].
    + now rewrite nw_score_col0, nw_score_row0.
    + rewrite !nw_score_step, !py_max3_Z_max.
      change (@num_add Z Z_number) with Z.add.
      rewrite pair_score_swap, IHc, !IHr. lia.
Qed.

Lemma col_score_sym {R : Type} (m mm g : R) x y :
  col_score m mm g x y = col_score m mm g y x.
Proof.
  unfold col_score. rewrite (orb_comm (is_gap x)).
  now rewrite (String.eqb_sym x y).
Qed.

Lemma align_score_sym {R : Type} `{Number R} (m mm g : R) a1 a2 :
  align_score m mm g a1 a2 = align_score m mm g a2 a1.
Proof.
  revert a2. induction a1 as [|x a1 IH]; intros [|y a2]; simpl; try done.
  now rewrite IH, col_score_sym.
Qed.

Lemma no_double_gap_sym a1 a2 : no_double_gap a1 a2 = no_double_gap a2 a1.
Proof.
  revert a2. induction a1 as [|x a1 IH]; intros [|y a2]; simpl; try done.
  now rewrite IH, (andb_comm (is_gap x)).
Qed.

Lemma is_alignment_swap s1 s2 a1 a2 :
  is_alignment s1 s2 a1 a2 -> is_alignment s2 s1 a2 a1.
Proof.
  intros (Hl & H1 & H2 & Hnd). repeat split; try done.
  now rewrite no_double_gap_sym.
Qed.

(** *** The backtrace of [needle(seq2, seq1)] against that of
    [needle(seq1, seq2)] *)

Section SwapFacts.
Variables s1 s2 : list symbol.
Variables m mm g : Z.

Local Abbreviation G12 := (score_grid s1 s2 m mm g).
Local Abbreviation G21 := (score_grid s2 s1 m mm g).

Lemma score_grid_swap r c :
  r <= length s2 -> c <= length s1 ->
  grid_get G21 c r = grid_get G12 r c.
Proof.
  intros Hr Hc. rewrite !score_grid_spec by done. apply nw_score_swap.
Qed.

(** Away from a tie the two backtraces take the same step: the second
    test of one is the third test of the other. *)
Lemma trace_body_swap t :
  0 < tr_i t <= length s2 -> 0 < tr_j t <= length s1 ->
  gap_tie s1 s2 m mm g G12 t = false ->
  trace_body s2 s1 m mm g G21 (swap_trace t)
  = swap_trace (trace_body s1 s2 m mm g G12 t).
Proof.
  destruct t as [i j a1 a2]. cbn [tr_i tr_j]. intros Hi Hj.
  destruct i as [|i]; [lia|]. destruct j as [|j]; [lia|].
  unfold gap_tie, trace_body, swap_trace. cbn [tr_i tr_j align1 align2].
  replace (S i - 1) with i by lia. replace (S j - 1) with j by lia.
  rewrite !score_grid_swap by lia. rewrite (pair_score_swap s1 s2).
  destruct (num_eqb (grid_get G12 (S i) (S j))
              (num_add (grid_get G12 i j) (pair_score s1 s2 m mm j i)));
    destruct (num_eqb (grid_get G12 (S i) (S j))
                (num_add (grid_get G12 (S i) j) g));
    destruct (num_eqb (grid_get G12 (S i) (S j))
                (num_add (grid_get G12 i (S j)) g));
    cbn [negb andb tr_i tr_j align1 align2]; intros Htie;
    try discriminate Htie; reflexivity.
Qed.

Lemma trace_body_bounds t :
  tr_i t <= length s2 -> tr_j t <= length s1 ->
  tr_i (trace_body s1 s2 m mm g G12 t) <= length s2 /\
  tr_j (trace_body s1 s2 m mm g G12 t) <= length s1.
Proof.
  intros Hi Hj. unfold trace_body.
  destruct (num_eqb _ _); [|destruct (num_eqb _ _); [|destruct (num_eqb _ _)]];
    cbn [tr_i tr_j]; lia.
Qed.

Lemma trace_loop_swap fuel :
  forall t,
    tr_i t <= length s2 -> tr_j t <= length s1 ->
    tie_on_path s1 s2 m mm g fuel G12 t = false ->
    trace_loop s2 s1 m mm g fuel G21 (swap_trace t)
    = option_map swap_trace (trace_loop s1 s2 m mm g fuel G12 t).
Proof.
  induction fuel as [|fuel IH]; intros t Hi Hj Htie;
    cbn [trace_loop tie_on_path] in *;
    change (tr_i (swap_trace t)) with (tr_j t);
    change (tr_j (swap_trace t)) with (tr_i t);
    rewrite (andb_comm (0 <? tr_j t));
    destruct (Nat.ltb_spec 0 (tr_i t)), (Nat.ltb_spec 0 (tr_j t));
    cbn [andb] in *; try reflexivity.
  apply orb_false_iff in Htie as [Hnow Hlater].
  rewrite trace_body_swap by (done || lia).
  destruct (trace_body_bounds t Hi Hj) as [Hi' Hj'].
  now apply IH.
Qed.

Lemma trace_loop_end fuel :
  forall t u,
    trace_loop s1 s2 m mm g fuel G12 t = Some u ->
    tr_i u = 0 \/ tr_j u = 0.
Proof.
  induction fuel as [|fuel IH]; intros t u; cbn [trace_loop];
    destruct (Nat.ltb_spec 0 (tr_i t)), (Nat.ltb_spec 0 (tr_j t));
    cbn [andb]; try discriminate;
    try (intros [= <-]; lia).
  apply IH.
Qed.

(** The two closing loops exchange their work. *)
Lemma finish_swap (s : list symbol) k :
  forall a1 a2,
    finish_i s k a2 a1
    = ((finish_j s k a1 a2).2, (finish_j s k a1 a2).1).
Proof.
  induction k as [|k IH]; intros a1 a2; [reflexivity|].
  cbn [finish_i finish_j]. apply IH.
Qed.

Lemma backtrace_swap fuel :
  needle_meets_tie fuel s1 s2 m mm g = false ->
  backtrace s2 s1 m mm g fuel
  = option_map (fun p => (p.2, p.1)) (backtrace s1 s2 m mm g fuel).
Proof.
  unfold needle_meets_tie, backtrace. intros Htie.
  change (Trace (length s1) (length s2) [] [])
    with (swap_trace (Trace (length s2) (length s1) [] [])).
  rewrite trace_loop_swap by done.
  destruct (trace_loop s1 s2 m mm g fuel G12 _) as [u|] eqn:Hloop;
    [|reflexivity].
  apply trace_loop_end in Hloop. destruct u as [i j a1 a2].
  cbn [option_map swap_trace tr_i tr_j align1 align2] in *.
  destruct Hloop as [-> | ->].
  - cbn [finish_j]. rewrite (finish_swap s1 j a1 a2).
    destruct (finish_j s1 j a1 a2) as [c1 c2]. reflexivity.
  - cbn [finish_j finish_i]. rewrite (finish_swap s2 i a2 a1).
    destruct (finish_j s2 i a2 a1) as [c1 c2]. reflexivity.
Qed.

(** The lists of the backtrace only grow. *)
Lemma trace_body_appends (G : list (list Z)) t :
  exists r1 r2,
    align1 (trace_body s1 s2 m mm g G t) = align1 t ++ r1 /\
    align2 (trace_body s1 s2 m mm g G t) = align2 t ++ r2.
Proof.
  unfold trace_body.
  destruct (num_eqb _ _); [|destruct (num_eqb _ _); [|destruct (num_eqb _ _)]];
    cbn [align1 align2]; eauto.
  exists [], []. now rewrite !app_nil_r.
Qed.

Lemma trace_loop_appends (G : list (list Z)) fuel :
  forall t u,
    trace_loop s1 s2 m mm g fuel G t = Some u ->
    exists r1 r2, align1 u = align1 t ++ r1 /\ align2 u = align2 t ++ r2.
Proof.
  induction fuel as [|fuel IH]; intros t u; cbn [trace_loop];
    destruct ((0 <? tr_i t) && (0 <? tr_j t)); try discriminate;
    try (intros [= <-]; exists [], []; now rewrite !app_nil_r).
  intros Hloop. destruct (IH _ _ Hloop) as (r1 & r2 & -> & ->).
  destruct (trace_body_appends G t) as (q1 & q2 & -> & ->).
  exists (q1 ++ r1), (q2 ++ r2). now rewrite !app_assoc.
Qed.

Lemma finish_j_appends (s : list symbol) k :
  forall a1 a2, exists r1 r2,
    finish_j s k a1 a2 = (a1 ++ r1, a2 ++ r2).
Proof.
  induction k as [|k IH]; intros a1 a2; cbn [finish_j].
  - exists [], []. now rewrite !app_nil_r.
  - destruct (IH (a1 ++ [item_at s k]) (a2 ++ [gap_marker]))
      as (r1 & r2 & ->).
    eexists _, _. now rewrite <- !app_assoc.
Qed.

Lemma finish_i_appends (s : list symbol) k :
  forall a1 a2, exists r1 r2,
    finish_i s k a1 a2 = (a1 ++ r1, a2 ++ r2).
Proof.
  induction k as [|k IH]; intros a1 a2; cbn [finish_i].
  - exists [], []. now rewrite !app_nil_r.
  - destruct (IH (a1 ++ [gap_marker]) (a2 ++ [item_at s k]))
      as (r1 & r2 & ->).
    eexists _, _. now rewrite <- !app_assoc.
Qed.
End SwapFacts.

Lemma gap_free_item_at s k :
  gap_free s -> k < length s -> item_at s k <> gap_marker.
Proof.
  revert k. induction s as [|x s IH]; intros k Hf Hk; [simpl in Hk; lia|].
  apply gap_free_cons in Hf as [Hx Hf]. destruct k as [|k].
  - unfold item_at. cbn [nth]. intros E. apply is_gap_eq in E. congruence.
  - unfold item_at. cbn [nth]. apply IH; [done|simpl in Hk; lia].
Qed.

(** At a tie the two backtraces part: where one writes an item of
    [seq1] in its first list, the other writes a gap marker in its
    second. *)
Lemma tie_parts s1 s2 (m mm g : Z) fuel :
  gap_free s1 ->
  forall t u u',
    tr_i t <= length s2 -> tr_j t <= length s1 ->
    tie_on_path s1 s2 m mm g fuel (score_grid s1 s2 m mm g) t = true ->
    trace_loop s1 s2 m mm g fuel (score_grid s1 s2 m mm g) t = Some u ->
    trace_loop s2 s1 m mm g fuel (score_grid s2 s1 m mm g) (swap_trace t)
    = Some u' ->
    exists p x r1 r2,
      align1 u = p ++ x :: r1 /\ align2 u' = p ++ gap_marker :: r2 /\
      x <> gap_marker.
Proof.
  intros Hfree. induction fuel as [|fuel IH]; intros t u u' Hi Hj;
    cbn [trace_loop tie_on_path];
    change (tr_i (swap_trace t)) with (tr_j t);
    change (tr_j (swap_trace t)) with (tr_i t);
    rewrite (andb_comm (0 <? tr_j t));
    destruct (Nat.ltb_spec 0 (tr_i t)), (Nat.ltb_spec 0 (tr_j t));
    cbn [andb]; try discriminate.
  destruct (gap_tie s1 s2 m mm g (score_grid s1 s2 m mm g) t) eqn:Htie;
    cbn [orb].
  - intros _ Hu Hu'.
    apply trace_loop_appends in Hu as (r1 & _ & Hu & _).
    apply trace_loop_appends in Hu' as (_ & r2 & _ & Hu').
    destruct t as [i j a1 a2]. cbn [tr_i tr_j] in *.
    destruct i as [|i]; [lia|]. destruct j as [|j]; [lia|].
    revert Htie Hu Hu'.
    unfold gap_tie, trace_body, swap_trace. cbn [tr_i tr_j align1 align2].
    replace (S i - 1) with i by lia. replace (S j - 1) with j by lia.
    rewrite !(score_grid_swap s1 s2 m mm g) by lia.
    rewrite (pair_score_swap s1 s2).
    destruct (num_eqb (grid_get (score_grid s1 s2 m mm g) (S i) (S j))
                (num_add (grid_get (score_grid s1 s2 m mm g) i j)
                         (pair_score s1 s2 m mm j i)));
      destruct (num_eqb (grid_get (score_grid s1 s2 m mm g) (S i) (S j))
                  (num_add (grid_get (score_grid s1 s2 m mm g) (S i) j) g));
      destruct (num_eqb (grid_get (score_grid s1 s2 m mm g) (S i) (S j))
                  (num_add (grid_get (score_grid s1 s2 m mm g) i (S j)) g));
      cbn [negb andb align1 align2]; try discriminate.
    intros _ Hu Hu'.
    exists a1, (item_at s1 j), r1, r2. rewrite Hu, Hu', <- !app_assoc.
    split; [done|]. split; [done|]. apply gap_free_item_at; [done|lia].
  - intros Hlater Hu Hu'. rewrite trace_body_swap in Hu' by (done || lia).
    destruct (trace_body_bounds s1 s2 m mm g t Hi Hj) as [Hi' Hj'].
    exact (IH _ _ _ Hi' Hj' Hlater Hu Hu').
Qed.

(** Without a tie on its way, the backtrace of [needle(seq2, seq1)]
    writes the two lists of the backtrace of [needle(seq1, seq2)],
    exchanged; with one, it does not. *)
Lemma needle_core_swap s1 s2 (m mm g : Z) fuel a1 a2 b1 b2 :
  gap_free s1 ->
  needle_core s1 s2 m mm g fuel = Some (a1, a2) ->
  needle_core s2 s1 m mm g fuel = Some (b1, b2) ->
  (b1 = a2 /\ b2 = a1) <-> needle_meets_tie fuel s1 s2 m mm g = false.
Proof.
  intros Hfree Ha Hb. split.
  - intros [_ E]. destruct (needle_meets_tie fuel s1 s2 m mm g) eqn:Htie;
      [exfalso|reflexivity].
    revert Ha Hb. unfold needle_core, backtrace.
    destruct (trace_loop s1 s2 m mm g fuel _ _) as [u|] eqn:Hu;
      [|discriminate].
    change (Trace (length s1) (length s2) [] [])
      with (swap_trace (Trace (length s2) (length s1) [] [])).
    destruct (trace_loop s2 s1 m mm g fuel _ _) as [u'|] eqn:Hu';
      [|discriminate].
    destruct (tie_parts s1 s2 m mm g fuel Hfree
                (Trace (length s2) (length s1) [] []) u u'
                (le_n _) (le_n _) Htie Hu Hu')
      as (p & x & r1 & r2 & E1 & E2 & Hx).
    destruct (finish_j_appends s1 (tr_j u) (align1 u) (align2 u))
      as (q1 & q2 & ->).
    destruct (finish_i_appends s2 (tr_i u) (align1 u ++ q1) (align2 u ++ q2))
      as (q3 & q4 & ->).
    destruct (finish_j_appends s2 (tr_j u') (align1 u') (align2 u'))
      as (q1' & q2' & ->).
    destruct (finish_i_appends s1 (tr_i u') (align1 u' ++ q1')
                (align2 u' ++ q2')) as (q3' & q4' & ->).
    intros [= <- <-] [= <- <-]. apply rev_inj in E.
    rewrite E1, E2, <- !app_assoc in E. apply app_inv_head in E.
    injection E as E _. congruence.
  - intros Htie. revert Ha Hb. unfold needle_core.
    rewrite (backtrace_swap s1 s2 m mm g fuel Htie).
    destruct (backtrace s1 s2 m mm g fuel) as [[c1 c2]|]; [|discriminate].
    cbn [option_map fst snd]. intros [= <- <-] [= <- <-]. done.
Qed.

(** C5, as the code has it.  For sequences that hold no gap marker of
    their own and integer scores the grid holds exactly,
    [needle(seq1, seq2)] and [needle(seq2, seq1)] work on grids that are
    transposes of one another; both return an alignment of the two
    sequences that scores the bottom-right cell, which no alignment of
    them exceeds; and [needle(seq2, seq1)] is [(a2, a1)], the transpose
    of [needle(seq1, seq2) = (a1, a2)], exactly when the backtrace of
    [needle(seq1, seq2)] comes through no cell at which the test of the
    diagonal fails while both tests of a gap hold. *)
Theorem needle_swap_same_score v1 v2 m mm g fuel :
  is_seq v1 -> is_seq v2 ->
  gap_free (items v1) -> gap_free (items v2) ->
  scores_exact (items v1) (items v2) m mm g ->
  length (items v1) + length (items v2) <= fuel ->
  let seq1 := items v1 in
  let seq2 := items v2 in
  let best := grid_get (score_grid seq1 seq2 m mm g)
                       (length seq2) (length seq1) in
  exists a1 a2 b1 b2,
    needle fuel v1 v2 (Vint m) (Vint mm) (Vint g) = Return (a1, a2) /\
    needle fuel v2 v1 (Vint m) (Vint mm) (Vint g) = Return (b1, b2) /\
    (forall r c, r <= length seq2 -> c <= length seq1 ->
       grid_get (score_grid seq2 seq1 m mm g) c r
       = grid_get (score_grid seq1 seq2 m mm g) r c) /\
    is_alignment seq1 seq2 (items a1) (items a2) /\
    is_alignment seq1 seq2 (items b2) (items b1) /\
    align_score m mm g (items a1) (items a2) = best /\
    align_score m mm g (items b2) (items b1) = best /\
    (forall c1 c2,
        is_alignment seq1 seq2 c1 c2 ->
        (align_score m mm g c1 c2 <= best)%Z) /\
    ((b1, b2) = (a2, a1)
     <-> needle_meets_tie fuel seq1 seq2 m mm g = false).
Proof.
  intros H1 H2 Hf1 Hf2 _ Hfuel seq1 seq2 best. subst seq1 seq2 best.
  destruct (needle_int_columns v1 v2 m mm g fuel H1 H2 Hfuel)
    as (cols & Hret & Hi1 & Hi2 & Hs1 & Hs2 & Hsc & Hcore).
  destruct (needle_int_columns v2 v1 m mm g fuel H2 H1 ltac:(lia))
    as (cols' & Hret' & Hi1' & Hi2' & Hs1' & Hs2' & Hsc' & Hcore').
  exists (wrap v1 v2 (row1 cols)), (wrap v1 v2 (row2 cols)),
         (wrap v2 v1 (row1 cols')), (wrap v2 v1 (row2 cols')).
  rewrite Hi1, Hi2, Hi1', Hi2'.
  split; [done|]. split; [done|].
  split; [|split; [|split; [|split; [|split; [|split]]]]].
  - intros r c Hr Hc. rewrite !score_grid_spec by done.
    apply nw_score_swap.
  - rewrite <- Hs1, <- Hs2. apply cols_is_alignment; congruence.
  - apply is_alignment_swap. rewrite <- Hs1', <- Hs2'.
    apply cols_is_alignment; congruence.
  - rewrite score_grid_spec by done. rewrite <- Hsc.
    apply cols_score_align; congruence.
  - rewrite score_grid_spec by done. rewrite align_score_sym.
    rewrite cols_score_align, Hsc' by congruence. apply nw_score_swap.
  - intros c1 c2 Hc. rewrite score_grid_spec by done. now apply nw_optimal.
  - rewrite <- (needle_core_swap _ _ m mm g fuel _ _ _ _ Hf1 Hcore Hcore').
    unfold wrap. rewrite (andb_comm (is_str v2)). split.
    + intros E. assert (E1 := f_equal (fun p => items p.1) E).
      assert (E2 := f_equal (fun p => items p.2) E).
      cbn [fst snd] in E1, E2. fold (wrap v2 v1 (row1 cols')) in E1.
      unfold wrap in Hi1, Hi2, Hi1', Hi2'.
      rewrite (andb_comm (is_str v2)) in Hi1', Hi2'.
      now rewrite Hi1', Hi2 in E1; rewrite Hi2', Hi1 in E2.
    + now intros [-> ->].
Qed.

Lemma needle_swap_same_score_witness :
  exists a1 a2 b1 b2,
    needle 14 (Vstr "GATTACA") (Vstr "GCATGCU")
           (Vint 100) (Vint (-1)) (Vint (-2)) = Return (a1, a2) /\
    needle 14 (Vstr "GCATGCU") (Vstr "GATTACA")
           (Vint 100) (Vint (-1)) (Vint (-2)) = Return (b1, b2) /\
    is_alignment (chars "GATTACA") (chars "GCATGCU") (items b2) (items b1) /\
    align_score 100%Z (-1)%Z (-2)%Z (items b2) (items b1)
    = align_score 100%Z (-1)%Z (-2)%Z (items a1) (items a2) /\
    (b1, b2) = (a2, a1).
Proof.
  destruct (needle_swap_same_score (Vstr "GATTACA") (Vstr "GCATGCU")
              100 (-1) (-2) 14)
    as (a1 & a2 & b1 & b2 & Ha & Hb & _ & _ & Hal & Hsa & Hsb & _ & Htr);
    [reflexivity | reflexivity | reflexivity | reflexivity
    | unfold scores_exact; simpl; lia | simpl; lia |].
  exists a1, a2, b1, b2. split; [done|]. split; [done|]. split; [done|].
  split; [congruence|]. apply Htr. vm_compute. reflexivity.
Defined.

(** C5 as stated fails when the backtrace meets a tie between its second
    and its third test: both calls then take the second, which puts the
    gap in the second row.  [needle("AB", "BA")] is [("-AB", "BA-")],
    but [needle("BA", "AB")] is [("-BA", "AB-")], not [("BA-", "-AB")]. *)
Lemma needle_swap_not_transpose :
  needle_default 4 (Vstr "AB") (Vstr "BA") = Return (Vstr "-AB", Vstr "BA-") /\
  needle_default 4 (Vstr "BA") (Vstr "AB") = Return (Vstr "-BA", Vstr "AB-") /\
  (Vstr "-BA", Vstr "AB-") <> (Vstr "BA-", Vstr "-AB").
Proof. repeat split; try reflexivity. discriminate. Qed.

(** ** Empty sequences *)

Lemma src1_nil_rows cols :
  src1 cols = [] ->
  row1 cols = replicate (length (src2 cols)) gap_marker /\
  row2 cols = src2 cols.
Proof.
  induction cols as [|[x y|x|y] cols IH]; simpl; intros Hs;
    try discriminate.
  - done.
  - destruct (IH Hs) as [-> ->]. done.
Qed.

Lemma src2_nil_rows cols :
  src2 cols = [] ->
  row1 cols = src1 cols /\
  row2 cols = replicate (length (src1 cols)) gap_marker.
Proof.
  induction cols as [|[x y|x|y] cols IH]; simpl; intros Hs;
    try discriminate.
  - done.
  - destruct (IH Hs) as [-> ->]. done.
Qed.

(** C6. An empty sequence is a valid argument, and aligning it with a
    sequence gives that sequence against as many gap markers as it has
    items, as two strings when the arguments are strings; in particular
    [needle("", "ACGT")] is [("----", "ACGT")], [needle("ACGT", "")] is
    [("ACGT", "----")] and [needle("", "")] is [("", "")]. *)
Theorem needle_empty_sequence :
  (forall v1 v2 m mm g fuel,
      is_seq v1 -> is_seq v2 -> items v1 = [] ->
      length (items v2) <= fuel ->
      exists a1 a2,
        needle fuel v1 v2 (Vint m) (Vint mm) (Vint g) = Return (a1, a2) /\
        items a1 = replicate (length (items v2)) gap_marker /\
        items a2 = items v2) /\
  (forall v1 v2 m mm g fuel,
      is_seq v1 -> is_seq v2 -> items v2 = [] ->
      length (items v1) <= fuel ->
      exists a1 a2,
        needle fuel v1 v2 (Vint m) (Vint mm) (Vint g) = Return (a1, a2) /\
        items a1 = items v1 /\
        items a2 = replicate (length (items v1)) gap_marker) /\
  (forall s m mm g fuel,
      String.length s <= fuel ->
      needle fuel (Vstr EmptyString) (Vstr s) (Vint m) (Vint mm) (Vint g)
      = Return (Vstr (join (replicate (String.length s) gap_marker)), Vstr s)
      /\
      needle fuel (Vstr s) (Vstr EmptyString) (Vint m) (Vint mm) (Vint g)
      = Return (Vstr s, Vstr (join (replicate (String.length s) gap_marker))))
  /\
  needle_default 4 (Vstr EmptyString) (Vstr "ACGT")
  = Return (Vstr "----", Vstr "ACGT") /\
  needle_default 4 (Vstr "ACGT") (Vstr EmptyString)
  = Return (Vstr "ACGT", Vstr "----") /\
  needle_default 0 (Vstr EmptyString) (Vstr EmptyString)
  = Return (Vstr EmptyString, Vstr EmptyString).
Proof.
  split; [|split; [|split; [|repeat split; reflexivity]]].
  - intros v1 v2 m mm g fuel H1 H2 Hnil Hfuel.
    destruct (needle_int_columns v1 v2 m mm g fuel H1 H2)
      as (cols & Hret & Hi1 & Hi2 & Hs1 & Hs2 & _).
    { rewrite Hnil. simpl. lia. }
    exists (wrap v1 v2 (row1 cols)), (wrap v1 v2 (row2 cols)).
    rewrite Hi1, Hi2. split; [done|].
    rewrite Hnil in Hs1. destruct (src1_nil_rows cols Hs1) as [-> ->].
    now rewrite Hs2.
  - intros v1 v2 m mm g fuel H1 H2 Hnil Hfuel.
    destruct (needle_int_columns v1 v2 m mm g fuel H1 H2)
      as (cols & Hret & Hi1 & Hi2 & Hs1 & Hs2 & _).
    { rewrite Hnil. simpl. lia. }
    exists (wrap v1 v2 (row1 cols)), (wrap v1 v2 (row2 cols)).
    rewrite Hi1, Hi2. split; [done|].
    rewrite Hnil in Hs2. destruct (src2_nil_rows cols Hs2) as [-> ->].
    now rewrite Hs1.
  - intros s m mm g fuel Hfuel.
    assert (Hlen : length (chars s) = String.length s).
    { induction s as [|c s IH]; [reflexivity|].
      rewrite chars_cons. simpl. f_equal. apply IH. simpl in Hfuel. lia. }
    split.
    + destruct (needle_int_columns (Vstr EmptyString) (Vstr s) m mm g fuel)
        as (cols & Hret & _ & _ & Hs1 & Hs2 & _);
        [reflexivity | reflexivity | simpl; lia |].
      destruct (src1_nil_rows cols Hs1) as [Hr1 Hr2].
      rewrite Hret. unfold wrap. simpl.
      rewrite Hr1, Hr2, Hs2. simpl. now rewrite Hlen, join_chars.
    + destruct (needle_int_columns (Vstr s) (Vstr EmptyString) m mm g fuel)
        as (cols & Hret & _ & _ & Hs1 & Hs2 & _);
        [reflexivity | reflexivity | simpl; lia |].
      destruct (src2_nil_rows cols Hs2) as [Hr1 Hr2].
      rewrite Hret. unfold wrap. simpl.
      rewrite Hr1, Hr2, Hs1. simpl. now rewrite Hlen, join_chars.
Qed.

Lemma needle_empty_sequence_witness :
  exists a1 a2,
    needle 3 (Vlist []) (Vtuple ["sp1"; "sp2"; "sp3"])
           (Vint 100) (Vint (-1)) (Vint (-2)) = Return (a1, a2) /\
    items a1 = replicate 3 gap_marker /\
    items a2 = ["sp1"; "sp2"; "sp3"].
Proof.
  apply (proj1 needle_empty_sequence (Vlist [])
               (Vtuple ["sp1"; "sp2"; "sp3"]));
    [reflexivity | reflexivity | reflexivity | simpl; lia].
Defined.

(** ** Type errors and termination *)

Lemma trace_loop_stuck {R : Type} `{Number R} s1 s2 (m mm g : R) G t :
  trace_body s1 s2 m mm g G t = t ->
  (0 <? tr_i t) && (0 <? tr_j t) = true ->
  forall fuel, trace_loop s1 s2 m mm g fuel G t = None.
Proof.
  intros Hfix Hcond fuel. induction fuel as [|fuel IH]; simpl; rewrite Hcond.
  - reflexivity.
  - now rewrite Hfix.
Qed.

Lemma needle_never_raises_valid fuel v1 v2 vm vmm vg e :
  valid_args v1 v2 vm vmm vg ->
  needle fuel v1 v2 vm vmm vg <> Raise e.
Proof.
  intros (H1 & H2 & H3 & H4 & H5). unfold needle.
  rewrite check_args_ok by done. simpl.
  destruct (align_lists fuel (items v1) (items v2) vm vmm vg) as [[a1 a2]|];
    discriminate.
Qed.

Lemma check_args_raises v1 v2 vm vmm vg :
  ~ valid_args v1 v2 vm vmm vg ->
  exists msg, check_args v1 v2 vm vmm vg = Raise (TypeError msg).
Proof.
  unfold valid_args, is_seq, is_num, check_args, check_seq, check_num.
  intros Hbad.
  destruct (type_in (type_of v1) [Tstr; Tlist; Ttuple]); [|eexists; reflexivity].
  destruct (type_in (type_of v2) [Tstr; Tlist; Ttuple]); [|eexists; reflexivity].
  destruct (type_in (type_of vm) [Tint; Tfloat]); [|eexists; reflexivity].
  destruct (type_in (type_of vmm) [Tint; Tfloat]); [|eexists; reflexivity].
  destruct (type_in (type_of vg) [Tint; Tfloat]); [|eexists; reflexivity].
  exfalso. apply Hbad. repeat split.
Qed.

(** Whatever the kind of the scores, when no cell of the grid is [nan]
    [needle] returns two rows of columns that spell its two arguments. *)
Lemma needle_aligned_columns v1 v2 vm vmm vg fuel :
  valid_args v1 v2 vm vmm vg ->
  no_nan_cell v1 v2 vm vmm vg ->
  length (items v1) + length (items v2) <= fuel ->
  exists cols,
    needle fuel v1 v2 vm vmm vg
    = Return (wrap v1 v2 (row1 cols), wrap v1 v2 (row2 cols)) /\
    items (wrap v1 v2 (row1 cols)) = row1 cols /\
    items (wrap v1 v2 (row2 cols)) = row2 cols /\
    src1 cols = items v1 /\ src2 cols = items v2.
Proof.
  intros (H1 & H2 & Hm & Hmm & Hg) Hnan Hfuel.
  assert (Hcore : exists cols,
             align_lists fuel (items v1) (items v2) vm vmm vg
             = Some (row1 cols, row2 cols) /\
             src1 cols = items v1 /\ src2 cols = items v2).
  { unfold align_lists, no_nan_cell in *.
    destruct vm; try discriminate Hm;
      destruct vmm; try discriminate Hmm;
      destruct vg; try discriminate Hg;
      now apply needle_core_aligned. }
  destruct Hcore as (cols & Hcore & Hs1 & Hs2).
  exists cols. unfold needle.
  rewrite check_args_ok by done. simpl mbind. unfold outcome_bind.
  rewrite Hcore. split; [reflexivity|].
  split; [|split; [|done]].
  - apply items_wrap. intros E1 _. apply row1_single. rewrite Hs1.
    now apply is_str_items_single.
  - apply items_wrap. intros _ E2. apply row2_single. rewrite Hs2.
    now apply is_str_items_single.
Qed.

(** What holds of the guards and of the body.  [needle] raises a
    [TypeError] exactly when [seq1] or [seq2] is not a [str], [list] or
    [tuple], or one of [match], [mismatch] and [gap] is not an [int] or
    a [float]; the guards alone decide it, before the grid is built; and
    given arguments of these types, [int] scores among them held
    exactly, [needle] returns, with enough fuel for
    [len(seq1) + len(seq2)] passes of its first loop, an alignment of
    its two sequences, provided no cell of the grid off row 0 and
    column 0 is [nan], as is the case when the three scores are
    [int]. *)
Lemma needle_type_errors_and_termination :
  (forall fuel v1 v2 vm vmm vg,
      (exists msg, needle fuel v1 v2 vm vmm vg = Raise (TypeError msg))
      <-> ~ valid_args v1 v2 vm vmm vg) /\
  (forall fuel v1 v2 vm vmm vg e,
      check_args v1 v2 vm vmm vg = Raise e ->
      needle fuel v1 v2 vm vmm vg = Raise e) /\
  (forall fuel v1 v2 vm vmm vg,
      valid_args v1 v2 vm vmm vg ->
      exact_score vm -> exact_score vmm -> exact_score vg ->
      no_nan_cell v1 v2 vm vmm vg ->
      length (items v1) + length (items v2) <= fuel ->
      exists a1 a2,
        needle fuel v1 v2 vm vmm vg = Return (a1, a2) /\
        Aligned (items v1) (items v2) (items a1) (items a2)) /\
  (forall v1 v2 m mm g,
      exact_score (Vint m) -> exact_score (Vint mm) -> exact_score (Vint g) ->
      no_nan_cell v1 v2 (Vint m) (Vint mm) (Vint g)).
Proof.
  split; [|split; [|split]].
  - intros fuel v1 v2 vm vmm vg. split.
    + intros [msg Hr] Hv.
      exact (needle_never_raises_valid fuel _ _ _ _ _ _ Hv Hr).
    + intros Hbad. destruct (check_args_raises _ _ _ _ _ Hbad) as [msg Hc].
      exists msg. unfold needle. now rewrite Hc.
  - intros fuel v1 v2 vm vmm vg e Hc. unfold needle. now rewrite Hc.
  - intros fuel v1 v2 vm vmm vg Hv _ _ _ Hnan Hfuel.
    destruct (needle_aligned_columns v1 v2 vm vmm vg fuel Hv Hnan Hfuel)
      as (cols & Hret & Hi1 & Hi2 & Hs1 & Hs2).
    exists (wrap v1 v2 (row1 cols)), (wrap v1 v2 (row2 cols)).
    rewrite Hi1, Hi2, <- Hs1, <- Hs2. split; [done|apply cols_Aligned].
  - intros v1 v2 m mm g _ _ _ r c _ _. apply Z.eqb_refl.
Qed.

(** C7.  The code at [needle("A", "A", gap=float("nan"))]: all the
    arguments have the types the guards ask for, and the call never
    returns.  Every cell of the grid is [nan], so none of the three
    [==] tests of the first loop holds; the [if]/[elif] chain, which
    its comment says finds the cell the current score was calculated
    from and updates [i] and [j], has no [else], and [i] and [j] stay
    as they are whatever the number of passes. *)
Lemma needle_nan_gap_diverges :
  valid_args (Vstr "A") (Vstr "A") (Vint 100) (Vint (-1)) (Vfloat nan) /\
  diverges (Vstr "A") (Vstr "A") (Vint 100) (Vint (-1)) (Vfloat nan).
Proof.
  split; [repeat split|]. intros fuel. unfold needle.
  rewrite check_args_ok by reflexivity. simpl mbind.
  unfold align_lists, needle_core, backtrace.
  rewrite trace_loop_stuck; [reflexivity | | reflexivity].
  vm_compute. reflexivity.
Qed.

(** The same with an infinite [gap]: [grid[0][0] = inf * 0] is [nan]. *)
Lemma needle_inf_gap_diverges :
  valid_args (Vstr "A") (Vstr "A") (Vint 100) (Vint (-1)) (Vfloat infinity) /\
  diverges (Vstr "A") (Vstr "A") (Vint 100) (Vint (-1)) (Vfloat infinity).
Proof.
  split; [repeat split|]. intros fuel. unfold needle.
  rewrite check_args_ok by reflexivity. simpl mbind.
  unfold align_lists, needle_core, backtrace.
  rewrite trace_loop_stuck; [reflexivity | | reflexivity].
  vm_compute. reflexivity.
Qed.

(** ** [rev_comp] *)

Lemma rev_comp_body_complement rev_str c :
  rev_comp_body rev_str c
  = Return (rev_str ++ String (complement c) EmptyString)%string.
Proof.
  unfold rev_comp_body.
  destruct c as [[] [] [] [] [] [] [] []]; reflexivity.
Qed.

Lemma complement_involutive c : complement (complement c) = c.
Proof. destruct c as [[] [] [] [] [] [] [] []]; reflexivity. Qed.

Lemma complement_outside c :
  char_in c "ATCGatcg" = false -> complement c = c.
Proof.
  destruct c as [[] [] [] [] [] [] [] []]; intros Hc; try reflexivity;
    discriminate.
Qed.

Lemma string_app_nil_r (s : string) : (s ++ EmptyString)%string = s.
Proof.
  induction s as [|c s IH]; [reflexivity|].
  change (String c (s ++ EmptyString)%string = String c s). now rewrite IH.
Qed.

Lemma string_app_assoc (s t u : string) :
  ((s ++ t) ++ u)%string = (s ++ (t ++ u))%string.
Proof.
  induction s as [|c s IH]; [reflexivity|].
  change (String c ((s ++ t) ++ u)%string = String c (s ++ (t ++ u))%string).
  now rewrite IH.
Qed.

Lemma for_each_rev_comp_body acc l :
  for_each rev_comp_body acc l
  = Return (acc ++ string_of_list_ascii (map complement l))%string.
Proof.
  revert acc. induction l as [|c l IH]; intros acc; simpl.
  - now rewrite string_app_nil_r.
  - rewrite rev_comp_body_complement. simpl. rewrite IH.
    now rewrite string_app_assoc.
Qed.

Lemma rev_comp_str s : rev_comp (Vstr s) = Return (Vstr (rev_comp_spec s)).
Proof.
  unfold rev_comp, rev_comp_spec. now rewrite for_each_rev_comp_body.
Qed.

(** C8, as the code has it.  On a [str], [rev_comp] sends every symbol
    through the case-preserving complement table (A and T, C and G, a
    and t, c and g exchange), leaves the symbols outside [ATCGatcg] as
    they are, and reverses the order; [rev_comp("ACGT")] is ["ACGT"],
    [rev_comp("AATT")] is ["AATT"], and [rev_comp("AaTtCcGg")] is
    ["cCgGaAtT"]. *)
Theorem rev_comp_complements_and_reverses :
  (forall s,
      rev_comp (Vstr s)
      = Return (Vstr (string_of_list_ascii
                        (map complement (rev (list_ascii_of_string s)))))) /\
  (complement "A" = "T" /\ complement "T" = "A" /\
   complement "C" = "G" /\ complement "G" = "C" /\
   complement "a" = "t" /\ complement "t" = "a" /\
   complement "c" = "g" /\ complement "g" = "c")%char /\
  (forall c, char_in c "ATCGatcg" = false -> complement c = c) /\
  rev_comp (Vstr "ACGT") = Return (Vstr "ACGT") /\
  rev_comp (Vstr "AATT") = Return (Vstr "AATT") /\
  rev_comp (Vstr "AaTtCcGg") = Return (Vstr "cCgGaAtT").
Proof.
  split; [exact rev_comp_str|].
  split; [repeat split|].
  split; [exact complement_outside|].
  repeat split.
Qed.

Lemma rev_comp_complements_and_reverses_witness :
  complement "N" = "N"%char.
Proof.
  apply (proj1 (proj2 (proj2 rev_comp_complements_and_reverses)) "N"%char).
  reflexivity.
Defined.

(** C8 as stated fails in its first example: the reverse complement of
    ["AaTtCcGg"] is ["cCgGaAtT"], not ["ccGgAAtT"]. *)
Lemma rev_comp_mixed_case_example :
  rev_comp (Vstr "AaTtCcGg") = Return (Vstr "cCgGaAtT") /\
  Vstr "cCgGaAtT" <> Vstr "ccGgAAtT".
Proof. split; [reflexivity|discriminate]. Qed.

(** C10. [rev_comp] is an involution on strings: applying it to its own
    result gives the string back. *)
Theorem rev_comp_involutive s :
  rev_comp (Vstr s) ≫= rev_comp = Return (Vstr s).
Proof.
  rewrite rev_comp_str.
  change (rev_comp (Vstr (rev_comp_spec s)) = Return (Vstr s)).
  rewrite rev_comp_str. unfold rev_comp_spec.
  rewrite list_ascii_of_string_of_list_ascii.
  rewrite <- map_rev, rev_involutive, map_map.
  rewrite (map_ext _ (fun c => c)) by apply complement_involutive.
  now rewrite map_id, string_of_list_ascii_of_string.
Qed.

(** ** [hamming] *)

Lemma hamming_loop_count s1 s2 : hamming_loop s1 s2 = mismatch_count s1 s2.
Proof.
  unfold hamming_loop, mismatch_count.
  set (mn := Nat.min (length s1) (length s2)).
  set (mx := Nat.max (length s1) (length s2)).
  set (differ := fun i => negb (Ascii.eqb (char_at s1 i) (char_at s2 i))).
  set (P := fun (k dist : nat) =>
              dist = length (List.filter differ (seq 0 (Nat.min k mn)))
                     + (k - mn)).
  assert (HP : P mx (foldl (hamming_body s1 s2) 0 (seq 0 mx))).
  { apply foldl_range_inv; unfold P.
    - reflexivity.
    - intros k dist Hk ->. unfold hamming_body.
      destruct (Nat.ltb_spec k (length s1)) as [E1|E1],
               (Nat.ltb_spec k (length s2)) as [E2|E2]; cbn [andb].
      + replace (Nat.min (S k) mn) with (S k) by (unfold mn; lia).
        replace (Nat.min k mn) with k by (unfold mn; lia).
        rewrite seq_S, List.filter_app, length_app. simpl.
        fold (differ k). replace (S k - mn) with 0 by (unfold mn; lia).
        replace (k - mn) with 0 by (unfold mn; lia).
        destruct (differ k); simpl; lia.
      + replace (Nat.min (S k) mn) with (Nat.min k mn) by (unfold mn; lia).
        unfold mn. lia.
      + replace (Nat.min (S k) mn) with (Nat.min k mn) by (unfold mn; lia).
        unfold mn. lia.
      + replace (Nat.min (S k) mn) with (Nat.min k mn) by (unfold mn; lia).
        unfold mn. lia. }
  unfold P in HP. rewrite HP.
  replace (Nat.min mx mn) with mn by (unfold mn, mx; lia). reflexivity.
Qed.

Lemma mismatch_count_same s : mismatch_count s s = 0.
Proof.
  unfold mismatch_count. rewrite Nat.max_id, Nat.min_id, Nat.sub_diag.
  rewrite Nat.add_0_r.
  induction (seq 0 (length s)) as [|i l IH]; simpl; [reflexivity|].
  now rewrite Ascii.eqb_refl.
Qed.

(** C9. On two strings [hamming] returns [(dist, distplus1, distminus1)]
    where [dist] counts the positions below the shorter length at which
    the strings differ, plus the difference of their lengths;
    [distplus1] is that count for [s1[1:]] and [s2], [distminus1] that
    count for [s1] and [s2[1:]]; and the first component of
    [hamming(s, s)] is 0. *)
Theorem hamming_counts :
  (forall s1 s2,
      hamming (Vstr s1) (Vstr s2)
      = Return (mismatch_count (list_ascii_of_string s1)
                               (list_ascii_of_string s2),
                mismatch_count (drop 1 (list_ascii_of_string s1))
                               (list_ascii_of_string s2),
                mismatch_count (list_ascii_of_string s1)
                               (drop 1 (list_ascii_of_string s2)))) /\
  (forall s, exists distplus1 distminus1,
      hamming (Vstr s) (Vstr s) = Return (0, distplus1, distminus1)).
Proof.
  assert (H : forall s1 s2,
      hamming (Vstr s1) (Vstr s2)
      = Return (mismatch_count (list_ascii_of_string s1)
                               (list_ascii_of_string s2),
                mismatch_count (drop 1 (list_ascii_of_string s1))
                               (list_ascii_of_string s2),
                mismatch_count (list_ascii_of_string s1)
                               (drop 1 (list_ascii_of_string s2)))).
  { intros s1 s2. unfold hamming, slice_from_1.
    now rewrite !hamming_loop_count. }
  split; [exact H|]. intros s. rewrite H, mismatch_count_same. eauto.
Qed.

(** ** [find_indices] *)

Lemma list_index_skip pre suf element start pos :
  pos + length pre <= start ->
  list_index (pre ++ suf) element start pos
  = list_index suf element start (pos + length pre).
Proof.
  revert pos. induction pre as [|x pre IH]; intros pos Hle; simpl.
  - now rewrite Nat.add_0_r.
  - simpl in Hle. destruct (Nat.leb_spec start pos); [lia|]. simpl.
    rewrite IH by lia. f_equal. lia.
Qed.

(** The first occurrence at or after [pos] splits the list. *)
Lemma list_index_first suf element pos :
  match list_index suf element pos pos with
  | None => indices_from suf element pos = []
  | Some k =>
      exists s1 s2,
        suf = s1 ++ element :: s2 /\ k = pos + length s1 /\
        indices_from suf element pos = k :: indices_from s2 element (S k)
  end.
Proof.
  assert (Hgen : forall start, start <= pos ->
    match list_index suf element start pos with
    | None => indices_from suf element pos = []
    | Some k =>
        exists s1 s2,
          suf = s1 ++ element :: s2 /\ k = pos + length s1 /\
          indices_from suf element pos = k :: indices_from s2 element (S k)
    end); [|now apply Hgen].
  revert pos. induction suf as [|x suf IH]; intros pos start Hle; simpl.
  - reflexivity.
  - destruct (Nat.leb_spec start pos); [|lia]. simpl.
    destruct (String.eqb_spec x element) as [->|Hne].
    + exists [], suf. simpl. rewrite Nat.add_0_r. auto.
    + specialize (IH (S pos) start ltac:(lia)).
      destruct (list_index suf element start (S pos)) as [k|]; [|done].
      destruct IH as (s1 & s2 & -> & -> & Hidx).
      exists (x :: s1), s2. simpl. split; [done|]. split; [lia|].
      rewrite Hidx.
      now replace (pos + S (length s1)) with (S pos + length s1) by lia.
Qed.

Lemma find_indices_loop_spec fuel :
  forall pre suf element result,
    length suf < fuel ->
    find_indices_loop fuel (pre ++ suf) element result
                      (Z.of_nat (length pre) - 1)
    = Return (result ++ indices_from suf element (length pre)).
Proof.
  induction fuel as [|fuel IH]; intros pre suf element result Hfuel; [lia|].
  simpl. replace (Z.to_nat (Z.of_nat (length pre) - 1 + 1)) with (length pre)
    by lia.
  rewrite list_index_skip by (simpl; lia). simpl.
  pose proof (list_index_first suf element (length pre)) as Hfirst.
  destruct (list_index suf element (length pre) (length pre)) as [k|].
  - destruct Hfirst as (s1 & s2 & -> & -> & ->).
    replace (pre ++ s1 ++ element :: s2)
      with ((pre ++ s1 ++ [element]) ++ s2)
      by (now rewrite <- !app_assoc).
    replace (Z.of_nat (length pre + length s1))
      with (Z.of_nat (length (pre ++ s1 ++ [element])) - 1)%Z
      by (rewrite !length_app; simpl; lia).
    rewrite IH by (rewrite length_app in Hfuel; simpl in Hfuel; lia).
    rewrite <- app_assoc. simpl.
    replace (length (pre ++ s1 ++ [element]))
      with (S (length pre + length s1))
      by (rewrite !length_app; simpl; lia).
    reflexivity.
  - rewrite Hfirst. now rewrite app_nil_r.
Qed.

Lemma indices_from_filter lst element pos :
  indices_from lst element pos
  = List.filter (fun k => String.eqb (item_at lst (k - pos)) element)
                (seq pos (length lst)).
Proof.
  revert pos. induction lst as [|x lst IH]; intros pos; [reflexivity|].
  simpl. rewrite Nat.sub_diag. unfold item_at at 1. simpl.
  rewrite IH.
  assert (Hext : List.filter
                   (fun k => String.eqb (item_at lst (k - S pos)) element)
                   (seq (S pos) (length lst))
                 = List.filter
                   (fun k => String.eqb (item_at (x :: lst) (k - pos)) element)
                   (seq (S pos) (length lst))).
  { apply List.filter_ext_in. intros k Hk. apply in_seq in Hk.
    replace (k - pos) with (S (k - S pos)) by lia. reflexivity. }
  rewrite Hext. now destruct (String.eqb x element).
Qed.

(** X1. With fuel for one pass more than the list is long, [find_indices]
    returns every index at which [element] occurs, in increasing order;
    in particular [find_indices(["a","b","a","c"], "a")] is [[0, 2]]
    and [find_indices([], "x")] is [[]]. *)
Theorem find_indices_all :
  (forall fuel lst element,
      length lst < fuel ->
      find_indices fuel lst element = Return (indices_of lst element)) /\
  find_indices 5 ["a"; "b"; "a"; "c"] "a" = Return [0; 2] /\
  find_indices 1 [] "x" = Return [].
Proof.
  split; [|split; reflexivity].
  intros fuel lst element Hfuel. unfold find_indices, indices_of.
  pose proof (find_indices_loop_spec fuel [] lst element [] Hfuel) as Hloop.
  change (find_indices_loop fuel lst element [] (-1)
          = Return (indices_from lst element 0)) in Hloop.
  rewrite Hloop, indices_from_filter. f_equal.
  apply List.filter_ext. intros k. now rewrite Nat.sub_0_r.
Qed.

Lemma find_indices_all_witness :
  find_indices 4 ["sp3"; "sp1"; "sp3"] "sp3"
  = Return (indices_of ["sp3"; "sp1"; "sp3"] "sp3").
Proof. apply (proj1 find_indices_all). simpl. lia. Defined.

(** ** [hamming] as a distance *)

Lemma hamming_str s1 s2 :
  hamming (Vstr s1) (Vstr s2)
  = Return (mismatch_count (list_ascii_of_string s1)
                           (list_ascii_of_string s2),
            mismatch_count (drop 1 (list_ascii_of_string s1))
                           (list_ascii_of_string s2),
            mismatch_count (list_ascii_of_string s1)
                           (drop 1 (list_ascii_of_string s2))).
Proof. unfold hamming, slice_from_1. now rewrite !hamming_loop_count. Qed.

Lemma mismatch_count_nil_l s : mismatch_count [] s = length s.
Proof. unfold mismatch_count. simpl. lia. Qed.

Lemma mismatch_count_nil_r s : mismatch_count s [] = length s.
Proof.
  unfold mismatch_count. rewrite Nat.min_0_r, Nat.max_0_r. simpl. lia.
Qed.

Lemma mismatch_count_cons x a y b :
  mismatch_count (x :: a) (y :: b)
  = (if Ascii.eqb x y then 0 else 1) + mismatch_count a b.
Proof.
  unfold mismatch_count. cbn [length].
  rewrite <- Nat.succ_min_distr, <- Nat.succ_max_distr.
  cbn [seq List.filter]. rewrite <- seq_shift, filter_map_swap.
  unfold char_at at 1 2. cbn [nth].
  replace (S (Nat.max (length a) (length b)) - S (Nat.min (length a) (length b)))
    with (Nat.max (length a) (length b) - Nat.min (length a) (length b)) by lia.
  destruct (Ascii.eqb x y); cbn [negb length]; rewrite length_map;
    reflexivity.
Qed.

Lemma mismatch_count_sym s1 s2 : mismatch_count s1 s2 = mismatch_count s2 s1.
Proof.
  revert s2. induction s1 as [|x a IH]; intros [|y b].
  - reflexivity.
  - now rewrite mismatch_count_nil_l, mismatch_count_nil_r.
  - now rewrite mismatch_count_nil_l, mismatch_count_nil_r.
  - now rewrite !mismatch_count_cons, IH, Ascii.eqb_sym.
Qed.

Lemma mismatch_count_zero s1 s2 : mismatch_count s1 s2 = 0 <-> s1 = s2.
Proof.
  revert s2. induction s1 as [|x a IH]; intros [|y b].
  - done.
  - rewrite mismatch_count_nil_l. simpl. split; [lia|discriminate].
  - rewrite mismatch_count_nil_r. simpl. split; [lia|discriminate].
  - rewrite mismatch_count_cons. destruct (Ascii.eqb_spec x y) as [->|Hne].
    + rewrite Nat.add_0_l, IH. split; [now intros ->|now intros [= ->]].
    + split; [lia|]. intros [= -> _]. done.
Qed.

Lemma mismatch_count_bounds s1 s2 :
  Nat.max (length s1) (length s2) - Nat.min (length s1) (length s2)
  <= mismatch_count s1 s2 <= Nat.max (length s1) (length s2).
Proof.
  revert s2. induction s1 as [|x a IH]; intros [|y b].
  - simpl. unfold mismatch_count. simpl. lia.
  - rewrite mismatch_count_nil_l. simpl. lia.
  - rewrite mismatch_count_nil_r. simpl. lia.
  - rewrite mismatch_count_cons. specialize (IH b). cbn [length].
    destruct (Ascii.eqb x y); lia.
Qed.

Lemma mismatch_count_triangle s1 s2 s3 :
  mismatch_count s1 s3 <= mismatch_count s1 s2 + mismatch_count s2 s3.
Proof.
  revert s2 s3. induction s1 as [|x a IH]; intros s2 s3.
  - rewrite !mismatch_count_nil_l.
    pose proof (mismatch_count_bounds s2 s3). lia.
  - destruct s3 as [|z c].
    + rewrite !mismatch_count_nil_r.
      pose proof (mismatch_count_bounds (x :: a) s2). lia.
    + destruct s2 as [|y b].
      * rewrite mismatch_count_nil_l, mismatch_count_nil_r.
        pose proof (mismatch_count_bounds (x :: a) (z :: c)). lia.
      * rewrite !mismatch_count_cons. specialize (IH b c).
        destruct (Ascii.eqb_spec x z) as [Hxz|Hxz],
                 (Ascii.eqb_spec x y) as [Hxy|Hxy],
                 (Ascii.eqb_spec y z) as [Hyz|Hyz]; try lia; congruence.
Qed.

Lemma list_ascii_of_string_inj s1 s2 :
  list_ascii_of_string s1 = list_ascii_of_string s2 -> s1 = s2.
Proof.
  intros E. rewrite <- (string_of_list_ascii_of_string s1),
              <- (string_of_list_ascii_of_string s2). now rewrite E.
Qed.

Lemma length_list_ascii_of_string s :
  length (list_ascii_of_string s) = String.length s.
Proof. induction s as [|c s IH]; simpl; [reflexivity|now rewrite IH]. Qed.

(** X3. Exchanging the two arguments of [hamming] keeps [dist] and
    exchanges [distplus1] and [distminus1]. *)
Theorem hamming_swap s1 s2 :
  exists dist distplus1 distminus1,
    hamming (Vstr s1) (Vstr s2) = Return (dist, distplus1, distminus1) /\
    hamming (Vstr s2) (Vstr s1) = Return (dist, distminus1, distplus1).
Proof.
  rewrite !hamming_str. eexists _, _, _. split; [reflexivity|].
  rewrite (mismatch_count_sym (list_ascii_of_string s2)).
  rewrite (mismatch_count_sym (drop 1 (list_ascii_of_string s2))).
  now rewrite (mismatch_count_sym (list_ascii_of_string s2)
                                  (drop 1 (list_ascii_of_string s1))).
Qed.

(** X4. The first component of [hamming(s1, s2)] is 0 exactly when the
    two strings are equal; it is at least the difference of the two
    lengths and at most the larger of them, so that [hamming("", s)]
    and [hamming(s, "")] have first component [len(s)]. *)
Theorem hamming_dist_zero_and_bounds s1 s2 :
  exists dist distplus1 distminus1,
    hamming (Vstr s1) (Vstr s2) = Return (dist, distplus1, distminus1) /\
    (dist = 0 <-> s1 = s2) /\
    Nat.max (String.length s1) (String.length s2)
    - Nat.min (String.length s1) (String.length s2) <= dist /\
    dist <= Nat.max (String.length s1) (String.length s2).
Proof.
  rewrite hamming_str. eexists _, _, _. split; [reflexivity|].
  rewrite <- !length_list_ascii_of_string. split.
  - rewrite mismatch_count_zero. split; [|now intros ->].
    apply list_ascii_of_string_inj.
  - apply mismatch_count_bounds.
Qed.

(** X5. The first component of [hamming] obeys the triangle inequality:
    the distance from [s1] to [s3] is at most the distance from [s1] to
    [s2] plus the distance from [s2] to [s3]. *)
Theorem hamming_triangle s1 s2 s3 :
  exists d12 p12 m12 d23 p23 m23 d13 p13 m13,
    hamming (Vstr s1) (Vstr s2) = Return (d12, p12, m12) /\
    hamming (Vstr s2) (Vstr s3) = Return (d23, p23, m23) /\
    hamming (Vstr s1) (Vstr s3) = Return (d13, p13, m13) /\
    d13 <= d12 + d23.
Proof.
  rewrite !hamming_str. eexists _, _, _, _, _, _, _, _, _.
  split; [reflexivity|]. split; [reflexivity|]. split; [reflexivity|].
  apply mismatch_count_triangle.
Qed.

(** X6. The shifted counts find a frame shift of one position:
    [distplus1] is 0 exactly when [string1[1:] == string2], and
    [distminus1] is 0 exactly when [string1 == string2[1:]]; so a
    string with one character put in front, compared with the string
    itself, gives [distplus1 == 0], and the other way round
    [distminus1 == 0]. *)
Theorem hamming_frameshift :
  (forall s1 s2, exists dist distplus1 distminus1,
      hamming (Vstr s1) (Vstr s2) = Return (dist, distplus1, distminus1) /\
      (distplus1 = 0
       <-> slice_from_1 (list_ascii_of_string s1) = list_ascii_of_string s2) /\
      (distminus1 = 0
       <-> list_ascii_of_string s1 = slice_from_1 (list_ascii_of_string s2))) /\
  (forall c s, exists dist distminus1,
      hamming (Vstr (String c s)) (Vstr s) = Return (dist, 0, distminus1)) /\
  (forall c s, exists dist distplus1,
      hamming (Vstr s) (Vstr (String c s)) = Return (dist, distplus1, 0)).
Proof.
  split; [|split].
  - intros s1 s2. rewrite hamming_str. eexists _, _, _.
    split; [reflexivity|]. unfold slice_from_1.
    now rewrite !mismatch_count_zero.
  - intros c s. rewrite hamming_str. eexists _, _. do 2 f_equal.
    cbn [list_ascii_of_string drop]. rewrite drop_0.
    now rewrite mismatch_count_same.
  - intros c s. rewrite hamming_str. eexists _, _. do 2 f_equal.
    cbn [list_ascii_of_string drop]. rewrite drop_0.
    now rewrite mismatch_count_same.
Qed.

(** ** [rev_comp] on concatenations, lengths and base counts *)

Lemma list_ascii_of_string_app a b :
  list_ascii_of_string (a ++ b)%string
  = list_ascii_of_string a ++ list_ascii_of_string b.
Proof.
  induction a as [|c a IH]; [reflexivity|].
  change (c :: list_ascii_of_string (a ++ b)%string
          = c :: (list_ascii_of_string a ++ list_ascii_of_string b)).
  now rewrite IH.
Qed.

Lemma string_of_list_ascii_app l1 l2 :
  string_of_list_ascii (l1 ++ l2)
  = (string_of_list_ascii l1 ++ string_of_list_ascii l2)%string.
Proof.
  induction l1 as [|c l1 IH]; [reflexivity|].
  change (String c (string_of_list_ascii (l1 ++ l2))
          = String c (string_of_list_ascii l1 ++ string_of_list_ascii l2)%string).
  now rewrite IH.
Qed.

Lemma count_occ_complement c l :
  count_occ ascii_dec (map complement l) c
  = count_occ ascii_dec l (complement c).
Proof.
  induction l as [|x l IH]; [reflexivity|]. cbn [map count_occ].
  destruct (ascii_dec (complement x) c) as [E|E],
           (ascii_dec x (complement c)) as [E'|E']; rewrite IH; try reflexivity.
  - exfalso. apply E'. now rewrite <- E, complement_involutive.
  - exfalso. apply E. now rewrite E', complement_involutive.
Qed.

(** X8. The reverse complement of a concatenation is the concatenation
    of the reverse complements, in the opposite order:
    [rev_comp(a + b) == rev_comp(b) + rev_comp(a)]. *)
Theorem rev_comp_concat a b :
  exists ra rb,
    rev_comp (Vstr a) = Return (Vstr ra) /\
    rev_comp (Vstr b) = Return (Vstr rb) /\
    rev_comp (Vstr (a ++ b)%string) = Return (Vstr (rb ++ ra)%string).
Proof.
  exists (rev_comp_spec a), (rev_comp_spec b). rewrite !rev_comp_str.
  split; [reflexivity|]. split; [reflexivity|]. do 2 f_equal.
  unfold rev_comp_spec.
  now rewrite list_ascii_of_string_app, rev_app_distr, map_app,
    string_of_list_ascii_app.
Qed.

(** X9. [rev_comp] keeps the length of a string and exchanges the
    counts of complementary bases: a character occurs in the result as
    often as its complement occurs in the argument, so that the number
    of G plus C is kept and every character outside [ATCGatcg] occurs
    as often as before. *)
Theorem rev_comp_length_and_counts s :
  exists r,
    rev_comp (Vstr s) = Return (Vstr r) /\
    String.length r = String.length s /\
    (forall c, count_char c r = count_char (complement c) s) /\
    (count_char "G" r + count_char "C" r
     = count_char "G" s + count_char "C" s)%char /\
    (forall c, char_in c "ATCGatcg" = false ->
               count_char c r = count_char c s).
Proof.
  exists (rev_comp_spec s). rewrite rev_comp_str. split; [reflexivity|].
  assert (Hcount : forall c,
             count_char c (rev_comp_spec s) = count_char (complement c) s).
  { intros c. unfold count_char, rev_comp_spec.
    rewrite list_ascii_of_string_of_list_ascii, count_occ_complement.
    apply Permutation.Permutation_count_occ, Permutation.Permutation_sym,
      Permutation.Permutation_rev. }
  split; [|split; [exact Hcount|split]].
  - rewrite <- !length_list_ascii_of_string. unfold rev_comp_spec.
    now rewrite list_ascii_of_string_of_list_ascii, length_map, length_rev.
  - rewrite !Hcount. cbn [complement]. lia.
  - intros c Hc. now rewrite Hcount, complement_outside.
Qed.

(** X10. [rev_comp] raises a [TypeError] that names the type of its
    argument exactly when the argument is not a [str]; on a [str] it
    always returns a [str]; and it never raises a [KeyError]: the
    dictionary is only read at the characters of ["ATCGatcg"], which are
    all among its keys. *)
Theorem rev_comp_type_errors :
  (forall v,
      type_of v <> Tstr ->
      rev_comp v = Raise (TypeError ("string must be str, not "
                                       ++ type_name (type_of v) ++ ".")%string)) /\
  (forall v, type_of v = Tstr -> exists r, rev_comp v = Return (Vstr r)) /\
  (forall v key, rev_comp v <> Raise (KeyError key)) /\
  (forall c, char_in c "ATCGatcg" = true ->
             exists c', dict_getitem rev_comp_lookup c = Return c').
Proof.
  split; [|split; [|split]].
  - intros v Hb. destruct v; try reflexivity. done.
  - intros v Hs. destruct v; try discriminate. rewrite rev_comp_str. eauto.
  - intros v key. destruct v; try discriminate. now rewrite rev_comp_str.
  - intros c Hc. destruct c as [[] [] [] [] [] [] [] []]; try discriminate Hc;
      eexists; reflexivity.
Qed.

Lemma rev_comp_type_errors_witness :
  rev_comp (Vlist ["A"; "C"])
  = Raise (TypeError "string must be str, not list.") /\
  (exists r, rev_comp (Vstr "ACNGT") = Return (Vstr r)) /\
  exists c', dict_getitem rev_comp_lookup "g" = Return c'.
Proof.
  split; [|split].
  - apply (proj1 rev_comp_type_errors (Vlist ["A"; "C"])). discriminate.
  - apply (proj1 (proj2 rev_comp_type_errors) (Vstr "ACNGT")). reflexivity.
  - apply (proj2 (proj2 (proj2 rev_comp_type_errors)) "g"%char).
    reflexivity.
Defined.

(** ** [find_indices]: membership, order and concatenation *)

Lemma find_indices_from fuel lst element :
  length lst < fuel ->
  find_indices fuel lst element = Return (indices_from lst element 0).
Proof.
  intros Hfuel.
  exact (find_indices_loop_spec fuel [] lst element [] Hfuel).
Qed.

Lemma indices_from_shift lst element pos :
  indices_from lst element pos
  = map (Nat.add pos) (indices_from lst element 0).
Proof.
  revert pos. induction lst as [|x lst IH]; intros pos; [reflexivity|].
  cbn [indices_from]. rewrite (IH (S pos)), (IH 1).
  assert (Hrest : map (Nat.add pos) (map (Nat.add 1) (indices_from lst element 0))
                  = map (Nat.add (S pos)) (indices_from lst element 0)).
  { rewrite map_map. apply map_ext. intros k. lia. }
  destruct (String.eqb x element); cbn [map]; rewrite Hrest; [|reflexivity].
  now rewrite Nat.add_0_r.
Qed.

Lemma indices_from_app l1 l2 element pos :
  indices_from (l1 ++ l2) element pos
  = indices_from l1 element pos ++ indices_from l2 element (pos + length l1).
Proof.
  revert pos. induction l1 as [|x l1 IH]; intros pos.
  - simpl. now rewrite Nat.add_0_r.
  - cbn [app indices_from length]. rewrite IH.
    replace (S pos + length l1) with (pos + S (length l1)) by lia.
    now destruct (String.eqb x element).
Qed.

Lemma indices_from_In lst element pos k :
  In k (indices_from lst element pos)
  <-> pos <= k /\ lst !! (k - pos) = Some element.
Proof.
  revert pos. induction lst as [|x lst IH]; intros pos.
  - simpl. split; [done|]. now intros [_ ?].
  - cbn [indices_from].
    assert (Hrest : In k (indices_from lst element (S pos))
                    <-> pos < k /\ (x :: lst) !! (k - pos) = Some element).
    { rewrite IH. split.
      - intros [Hle Hk]. split; [lia|].
        replace (k - pos) with (S (k - S pos)) by lia. exact Hk.
      - intros [Hlt Hk]. split; [lia|].
        replace (k - pos) with (S (k - S pos)) in Hk by lia. exact Hk. }
    destruct (String.eqb_spec x element) as [->|Hne].
    + cbn [In]. rewrite Hrest. split.
      * intros [<-|[Hlt Hk]]; [|split; [lia|done]].
        split; [lia|]. now rewrite Nat.sub_diag.
      * intros [Hle Hk]. destruct (decide (pos = k)) as [->|]; [now left|].
        right. split; [lia|done].
    + rewrite Hrest. split.
      * intros [Hlt Hk]. split; [lia|done].
      * intros [Hle Hk]. split; [|done].
        destruct (decide (pos = k)) as [->|]; [|lia].
        rewrite Nat.sub_diag in Hk. simpl in Hk. congruence.
Qed.

Lemma indices_from_sorted lst element pos :
  StronglySorted lt (indices_from lst element pos).
Proof.
  revert pos. induction lst as [|x lst IH]; intros pos; [constructor|].
  cbn [indices_from]. destruct (String.eqb x element); [|apply IH].
  constructor; [apply IH|].
  apply List.Forall_forall. intros k Hk. apply indices_from_In in Hk. lia.
Qed.

Lemma indices_from_length lst element pos :
  length (indices_from lst element pos) = count_occ string_dec lst element.
Proof.
  revert pos. induction lst as [|x lst IH]; intros pos; [reflexivity|].
  cbn [indices_from count_occ].
  destruct (String.eqb_spec x element) as [Heq|Hne],
           (string_dec x element) as [E|E]; try done.
  cbn [length]. now rewrite IH.
Qed.

(** X11. What [find_indices] returns: an index is in the result exactly
    when the list holds [element] there; the result is strictly
    increasing, so no index comes twice; it has as many entries as
    [lst.count(element)]; and it is empty exactly when [element] is
    not in the list. *)
Theorem find_indices_members fuel lst element :
  length lst < fuel ->
  exists result,
    find_indices fuel lst element = Return result /\
    (forall k, In k result <-> lst !! k = Some element) /\
    StronglySorted lt result /\
    length result = count_occ string_dec lst element /\
    (result = [] <-> ~ In element lst).
Proof.
  intros Hfuel. exists (indices_from lst element 0).
  split; [now apply find_indices_from|].
  split; [|split; [apply indices_from_sorted|split]].
  - intros k. rewrite indices_from_In, Nat.sub_0_r. split; [now intros [_ ?]|].
    intros Hk. split; [lia|done].
  - apply indices_from_length.
  - rewrite (count_occ_not_In string_dec), <- (indices_from_length _ _ 0).
    split; [now intros ->|]. apply nil_length_inv.
Qed.

Lemma find_indices_members_witness :
  exists result,
    find_indices 5 ["sp1"; "sp7"; "sp1"; "sp1"] "sp1" = Return result /\
    (forall k, In k result
               <-> ["sp1"; "sp7"; "sp1"; "sp1"] !! k = Some "sp1") /\
    StronglySorted lt result /\
    length result = count_occ string_dec ["sp1"; "sp7"; "sp1"; "sp1"] "sp1" /\
    (result = [] <-> ~ In "sp1" ["sp1"; "sp7"; "sp1"; "sp1"]).
Proof. apply (find_indices_members 5). simpl. lia. Defined.

(** X12. [find_indices] on a concatenation: the indices found in the
    first list, followed by the indices found in the second list, each
    moved by the length of the first. *)
Theorem find_indices_concat fuel l1 l2 element :
  length (l1 ++ l2) < fuel ->
  exists r1 r2,
    find_indices fuel l1 element = Return r1 /\
    find_indices fuel l2 element = Return r2 /\
    find_indices fuel (l1 ++ l2) element
    = Return (r1 ++ map (fun k => length l1 + k) r2).
Proof.
  intros Hfuel. rewrite length_app in Hfuel.
  exists (indices_from l1 element 0), (indices_from l2 element 0).
  rewrite !find_indices_from by (rewrite ?length_app; lia).
  split; [reflexivity|]. split; [reflexivity|]. f_equal.
  rewrite indices_from_app. f_equal.
  now rewrite (indices_from_shift l2 element (0 + length l1)).
Qed.

Lemma find_indices_concat_witness :
  exists r1 r2,
    find_indices 4 ["a"; "b"] "a" = Return r1 /\
    find_indices 4 ["a"] "a" = Return r2 /\
    find_indices 4 (["a"; "b"] ++ ["a"]) "a"
    = Return (r1 ++ map (fun k => length ["a"; "b"] + k) r2).
Proof. apply (find_indices_concat 4). simpl. lia. Defined.

(** ** A sequence aligned with itself *)

Section SelfAlign.
Variable s : list symbol.
Variables m mm g : Z.
Hypothesis mismatch_le_match : (mm <= m)%Z.
Hypothesis two_gaps_le_match : (2 * g <= m)%Z.

Local Abbreviation nws := (nw_score s s m mm g).

Lemma pair_score_self_le r c : (pair_score s s m mm c r <= m)%Z.
Proof. unfold pair_score. destruct (String.eqb _ _); lia. Qed.

Lemma pair_score_self_diag i : pair_score s s m mm i i = m.
Proof. unfold pair_score. now rewrite String.eqb_refl. Qed.

(** Off the diagonal a cell is worth at most the matches of the shorter
    prefix and the gaps that make up the difference. *)
Lemma nw_self_bound r :
  forall c,
    (r <= c ->
     (nws r c <= Z.of_nat r * m + (Z.of_nat c - Z.of_nat r) * g)%Z) /\
    (c <= r ->
     (nws r c <= Z.of_nat c * m + (Z.of_nat r - Z.of_nat c) * g)%Z).
Proof.
  induction r as [|r IHr]; intros c.
  - rewrite nw_score_row0.
    change (@num_mul_nat Z Z_number g c) with (g * Z.of_nat c)%Z.
    split; intros Hle; [lia|]. replace c with 0 by lia. lia.
  - induction c as [|c IHc].
    + rewrite nw_score_col0.
      change (@num_mul_nat Z Z_number g (S r)) with (g * Z.of_nat (S r))%Z.
      split; intros Hle; lia.
    + rewrite nw_score_step, py_max3_Z_max.
      change (@num_add Z Z_number) with Z.add.
      pose proof (pair_score_self_le r c) as Hp.
      destruct (IHr c) as [Hd1 Hd2]. destruct (IHr (S c)) as [Hu1 Hu2].
      destruct IHc as [Hl1 Hl2].
      rewrite !Nat2Z.inj_succ in *.
      split; intros Hle.
      * specialize (Hd1 ltac:(lia)). specialize (Hu1 ltac:(lia)).
        destruct (decide (r = c)) as [->|Hne].
        -- specialize (Hl2 ltac:(lia)). lia.
        -- specialize (Hl1 ltac:(lia)). lia.
      * specialize (Hd2 ltac:(lia)). specialize (Hl2 ltac:(lia)).
        destruct (decide (r = c)) as [->|Hne].
        -- specialize (Hu1 ltac:(lia)). lia.
        -- specialize (Hu2 ltac:(lia)). lia.
Qed.

(** On the diagonal every cell is reached from the cell before it. *)
Lemma nw_self_diag i : nws i i = (Z.of_nat i * m)%Z.
Proof.
  induction i as [|i IH].
  - rewrite nw_score_row0.
    change (@num_mul_nat Z Z_number g 0) with (g * 0)%Z. lia.
  - pose proof (nw_ge_diag s s m mm g i i) as Hge.
    rewrite pair_score_self_diag, IH in Hge.
    destruct (nw_self_bound (S i) (S i)) as [Hle _].
    specialize (Hle ltac:(lia)). rewrite !Nat2Z.inj_succ in *. lia.
Qed.

Lemma take_S_item_at i : i < length s -> take (S i) s = take i s ++ [item_at s i].
Proof.
  intros Hi. destruct (lookup_lt_is_Some_2 s i Hi) as [x Hx].
  unfold item_at. rewrite (nth_lookup_Some _ _ _ _ Hx).
  now apply take_S_r.
Qed.

(** The first loop of the backtrace walks up the diagonal. *)
Lemma trace_loop_self i :
  forall fuel a1 a2,
    i <= length s -> i <= fuel ->
    trace_loop s s m mm g fuel (score_grid s s m mm g) (Trace i i a1 a2)
    = Some (Trace 0 0 (a1 ++ rev (take i s)) (a2 ++ rev (take i s))).
Proof.
  induction i as [|i IH]; intros fuel a1 a2 Hi Hfuel.
  - destruct fuel; simpl; now rewrite !app_nil_r.
  - destruct fuel as [|fuel]; [lia|].
    cbn [trace_loop tr_i tr_j Nat.ltb Nat.leb andb].
    assert (Hbody : trace_body s s m mm g (score_grid s s m mm g)
                               (Trace (S i) (S i) a1 a2)
                    = Trace i i (a1 ++ [item_at s i]) (a2 ++ [item_at s i])).
    { unfold trace_body. cbn [tr_i tr_j align1 align2].
      replace (S i - 1) with i by lia.
      rewrite !score_grid_spec by lia.
      rewrite !nw_self_diag, pair_score_self_diag.
      change (@num_add Z Z_number) with Z.add.
      change (@num_eqb Z Z_number) with Z.eqb.
      replace (Z.of_nat (S i) * m =? Z.of_nat i * m + m)%Z with true
        by (symmetry; apply Z.eqb_eq; lia).
      reflexivity. }
    rewrite Hbody, IH by lia.
    rewrite take_S_item_at by lia.
    now rewrite rev_app_distr, <- !app_assoc.
Qed.

Lemma needle_core_self fuel :
  length s <= fuel -> needle_core s s m mm g fuel = Some (s, s).
Proof.
  intros Hfuel. unfold needle_core, backtrace.
  rewrite trace_loop_self by lia.
  cbn [tr_i tr_j align1 align2 finish_i finish_j app].
  now rewrite rev_involutive, firstn_all.
Qed.
End SelfAlign.

(** X13. A sequence aligned with itself comes back without a gap
    marker, whenever a match scores at least as much as a mismatch and
    as two gaps (as with the default scores 100, -1, -2):
    [needle(s, s) == (s, s)] for a [str], [(l, l)] for a [list], and
    [(list(t), list(t))] for a [tuple]. *)
Theorem needle_self m mm g fuel :
  (mm <= m)%Z -> (2 * g <= m)%Z ->
  (forall s, String.length s <= fuel ->
     needle fuel (Vstr s) (Vstr s) (Vint m) (Vint mm) (Vint g)
     = Return (Vstr s, Vstr s)) /\
  (forall l, length l <= fuel ->
     needle fuel (Vlist l) (Vlist l) (Vint m) (Vint mm) (Vint g)
     = Return (Vlist l, Vlist l)) /\
  (forall l, length l <= fuel ->
     needle fuel (Vtuple l) (Vtuple l) (Vint m) (Vint mm) (Vint g)
     = Return (Vlist l, Vlist l)).
Proof.
  intros Hmm Hg. split; [|split].
  - intros s Hfuel. unfold needle.
    rewrite check_args_ok by reflexivity. simpl mbind.
    unfold align_lists. cbn [items].
    rewrite needle_core_self; try done.
    + unfold wrap. cbn [is_str andb]. now rewrite join_chars.
    + unfold chars. now rewrite length_map, length_list_ascii_of_string.
  - intros l Hfuel. unfold needle.
    rewrite check_args_ok by reflexivity. simpl mbind.
    unfold align_lists. cbn [items]. now rewrite needle_core_self.
  - intros l Hfuel. unfold needle.
    rewrite check_args_ok by reflexivity. simpl mbind.
    unfold align_lists. cbn [items]. now rewrite needle_core_self.
Qed.

Lemma needle_self_witness :
  needle_default 7 (Vstr "GATTACA") (Vstr "GATTACA")
  = Return (Vstr "GATTACA", Vstr "GATTACA") /\
  needle_default 2 (Vtuple ["sp1"; "sp2"]) (Vtuple ["sp1"; "sp2"])
  = Return (Vlist ["sp1"; "sp2"], Vlist ["sp1"; "sp2"]).
Proof.
  split.
  - apply (proj1 (needle_self 100 (-1) (-2) 7 ltac:(lia) ltac:(lia))).
    simpl. lia.
  - apply (proj2 (proj2 (needle_self 100 (-1) (-2) 2 ltac:(lia) ltac:(lia)))).
    simpl. lia.
Defined.

(** ** [nan] in the grid *)

Lemma float_nan_unique x : Prim2SF x = S754_nan -> x = nan.
Proof. intros E. rewrite <- (SF2Prim_Prim2SF x), E. reflexivity. Qed.

Lemma float_add_nan_l y : PrimFloat.add nan y = nan.
Proof. apply float_nan_unique. rewrite add_spec. reflexivity. Qed.

Lemma float_add_nan_r x : PrimFloat.add x nan = nan.
Proof.
  apply float_nan_unique. rewrite add_spec.
  change (Prim2SF nan) with S754_nan. now destruct (Prim2SF x).
Qed.

Lemma float_mul_nan_l y : PrimFloat.mul nan y = nan.
Proof. apply float_nan_unique. rewrite mul_spec. reflexivity. Qed.

Lemma float_eqb_nan_l y : PrimFloat.eqb nan y = false.
Proof. rewrite FloatAxioms.eqb_spec. reflexivity. Qed.

Lemma float_ltb_nan_l y : PrimFloat.ltb nan y = false.
Proof. rewrite ltb_spec. reflexivity. Qed.

Lemma float_eqb_self_false x : PrimFloat.eqb x x = false -> x = nan.
Proof.
  rewrite FloatAxioms.eqb_spec. intros E. apply float_nan_unique.
  destruct (Prim2SF x) as [sx|sx| |sx mx ex]; try reflexivity; exfalso.
  - discriminate E.
  - destruct sx; discriminate E.
  - unfold SFeqb, SFcompare in E. rewrite Z.compare_refl in E.
    change (PosDef.Pos.compare_cont Eq mx mx) with (Pos.compare_cont Eq mx mx)
      in E.
    rewrite Pos.compare_cont_refl in E. destruct sx; discriminate E.
Qed.

(** [max([nan, b, c])] is [nan]: no item is greater than the first. *)
Lemma py_max3_nan (b c : float) : py_max3 nan b c = nan.
Proof.
  unfold py_max3. cbv zeta.
  change (@num_gtb float float_number) with (fun a b => PrimFloat.ltb b a).
  cbv beta. now rewrite !float_ltb_nan_l.
Qed.

(** With [gap = nan] every cell of the grid is [nan]. *)
Lemma nw_score_nan_gap s1 s2 (m mm : float) r :
  forall c, nw_score s1 s2 m mm nan r c = nan.
Proof.
  induction r as [|r IHr]; intros c.
  - rewrite nw_score_row0. apply float_mul_nan_l.
  - induction c as [|c IHc].
    + rewrite nw_score_col0. apply float_mul_nan_l.
    + rewrite nw_score_step, IHr.
      change (@num_add float float_number) with PrimFloat.add.
      rewrite float_add_nan_l. apply py_max3_nan.
Qed.

(** With an infinite [gap], [grid[0][0] = gap * 0] is [nan], and so is
    every cell of the diagonal. *)
Lemma nw_score_inf_gap_diag s1 s2 (m mm g : float) k :
  g = infinity \/ g = neg_infinity ->
  nw_score s1 s2 m mm g k k = nan.
Proof.
  intros Hg. induction k as [|k IH].
  - rewrite nw_score_row0. destruct Hg as [->| ->]; reflexivity.
  - rewrite nw_score_step, IH.
    change (@num_add float float_number) with PrimFloat.add.
    rewrite float_add_nan_l. apply py_max3_nan.
Qed.

(** When the cell the backtrace starts from is [nan], none of the three
    tests of the first loop holds, and the loop goes on for ever. *)
Lemma needle_core_nan_start s1 s2 (m mm g : float) fuel :
  s1 <> [] -> s2 <> [] ->
  grid_get (score_grid s1 s2 m mm g) (length s2) (length s1) = nan ->
  needle_core s1 s2 m mm g fuel = None.
Proof.
  intros H1 H2 Hnan. unfold needle_core, backtrace.
  rewrite trace_loop_stuck; [reflexivity| |].
  - unfold trace_body. cbn [tr_i tr_j align1 align2]. rewrite Hnan.
    change (@num_eqb float float_number) with PrimFloat.eqb.
    now rewrite !float_eqb_nan_l.
  - cbn [tr_i tr_j]. destruct s1, s2; done.
Qed.

Lemma align_lists_float fuel s1 s2 vm vmm vg :
  is_num vm -> is_num vmm -> is_num vg -> some_float vm vmm vg ->
  align_lists fuel s1 s2 vm vmm vg
  = needle_core s1 s2 (to_float vm) (to_float vmm) (to_float vg) fuel.
Proof.
  unfold is_num, some_float, align_lists.
  intros Hm Hmm Hg [Hf|[Hf|Hf]];
    destruct vm; try discriminate; destruct vmm; try discriminate;
    destruct vg; try discriminate; reflexivity.
Qed.

Lemma needle_diverges_nan_start v1 v2 vm vmm vg :
  valid_args v1 v2 vm vmm vg -> some_float vm vmm vg ->
  items v1 <> [] -> items v2 <> [] ->
  grid_get (score_grid (items v1) (items v2) (to_float vm) (to_float vmm)
                       (to_float vg))
           (length (items v2)) (length (items v1)) = nan ->
  diverges v1 v2 vm vmm vg.
Proof.
  intros (H1 & H2 & Hm & Hmm & Hg) Hf Hn1 Hn2 Hnan fuel. unfold needle.
  rewrite check_args_ok by done. simpl mbind. unfold outcome_bind.
  rewrite align_lists_float by done.
  now rewrite needle_core_nan_start.
Qed.

(** X14. Given arguments of the right types of which one score is a
    [float] (the [int] scores among them small enough to be held
    exactly), and two sequences that are not empty: when the
    bottom-right cell of the grid is [nan], [needle] never leaves its
    first [while] loop, since none of its three [==] tests holds for a
    [nan]. *)
Theorem needle_nan_start_never_returns v1 v2 vm vmm vg :
  valid_args v1 v2 vm vmm vg -> some_float vm vmm vg ->
  exact_score vm -> exact_score vmm -> exact_score vg ->
  items v1 <> [] -> items v2 <> [] ->
  start_cell_nan v1 v2 vm vmm vg ->
  diverges v1 v2 vm vmm vg.
Proof.
  intros Hv Hf _ _ _ Hn1 Hn2 Hnan.
  apply needle_diverges_nan_start; try done.
  now apply float_eqb_self_false.
Qed.

Lemma needle_nan_start_never_returns_witness :
  diverges (Vstr "AC") (Vlist ["A"; "C"]) (Vfloat nan) (Vint (-1)) (Vint (-2)).
Proof.
  apply needle_nan_start_never_returns.
  - repeat split.
  - left. reflexivity.
  - exact I.
  - simpl. lia.
  - simpl. lia.
  - discriminate.
  - discriminate.
  - vm_compute. reflexivity.
Defined.

(** X15. With [gap = nan], [needle] never returns on two sequences that
    are not empty, whatever they hold and whatever [match] and
    [mismatch] are (a [float], or an [int] held exactly): every cell of
    the grid is [nan].  With
    [gap = inf] or [gap = -inf] it never returns on two sequences of
    the same length that are not empty: [grid[0][0] = gap * 0] is
    [nan], and so is the diagonal down to the bottom-right cell. *)
Theorem needle_gap_nan_never_returns :
  (forall v1 v2 vm vmm,
      is_seq v1 -> is_seq v2 -> is_num vm -> is_num vmm ->
      exact_score vm -> exact_score vmm ->
      items v1 <> [] -> items v2 <> [] ->
      diverges v1 v2 vm vmm (Vfloat nan)) /\
  (forall v1 v2 vm vmm g,
      is_seq v1 -> is_seq v2 -> is_num vm -> is_num vmm ->
      exact_score vm -> exact_score vmm ->
      g = infinity \/ g = neg_infinity ->
      items v1 <> [] -> length (items v1) = length (items v2) ->
      diverges v1 v2 vm vmm (Vfloat g)).
Proof.
  split.
  - intros v1 v2 vm vmm H1 H2 Hm Hmm _ _ Hn1 Hn2.
    apply needle_diverges_nan_start; try done.
    + right. right. reflexivity.
    + rewrite score_grid_spec by lia. apply nw_score_nan_gap.
  - intros v1 v2 vm vmm g H1 H2 Hm Hmm _ _ Hg Hn1 Hlen.
    apply needle_diverges_nan_start; try done.
    + right. right. reflexivity.
    + intros E. rewrite E in Hlen. now destruct (items v1).
    + rewrite score_grid_spec by lia. rewrite Hlen.
      now apply nw_score_inf_gap_diag.
Qed.

Lemma needle_gap_nan_never_returns_witness :
  diverges (Vstr "GATTACA") (Vtuple ["G"; "C"]) (Vint 100) (Vfloat 0.5)
           (Vfloat nan) /\
  diverges (Vstr "AB") (Vstr "BA") (Vint 100) (Vint (-1))
           (Vfloat neg_infinity).
Proof.
  split.
  - apply (proj1 needle_gap_nan_never_returns);
      [reflexivity | reflexivity | reflexivity | reflexivity
      | simpl; lia | exact I | discriminate | discriminate].
  - apply (proj2 needle_gap_nan_never_returns);
      [reflexivity | reflexivity | reflexivity | reflexivity
      | simpl; lia | simpl; lia | now right | discriminate | reflexivity].
Defined.

(** ** The length and the kind of the rows [needle] returns *)

Lemma cols_lengths cols :
  length (row1 cols) = length cols /\
  length (src1 cols) <= length cols /\
  length (src2 cols) <= length cols /\
  length cols <= length (src1 cols) + length (src2 cols).
Proof.
  split; [unfold row1; now rewrite length_map|].
  induction cols as [|[x y|x|y] cols IH]; simpl; lia.
Qed.

(** X16. Whatever the kind of the scores (a [float], or an [int] held
    exactly), when no cell of the grid is [nan] the two rows [needle] returns have the same length, which is
    at least [max(len(seq1), len(seq2))] and at most
    [len(seq1) + len(seq2)]; both are [str] when both arguments are
    [str], and both are [list] otherwise, also for [tuple]
    arguments. *)
Theorem needle_rows_length_and_kind v1 v2 vm vmm vg fuel :
  valid_args v1 v2 vm vmm vg ->
  exact_score vm -> exact_score vmm -> exact_score vg ->
  no_nan_cell v1 v2 vm vmm vg ->
  length (items v1) + length (items v2) <= fuel ->
  exists a1 a2,
    needle fuel v1 v2 vm vmm vg = Return (a1, a2) /\
    length (items a1) = length (items a2) /\
    Nat.max (length (items v1)) (length (items v2)) <= length (items a1) /\
    length (items a1) <= length (items v1) + length (items v2) /\
    type_of a1 = (if is_str v1 && is_str v2 then Tstr else Tlist) /\
    type_of a2 = type_of a1.
Proof.
  intros Hv _ _ _ Hnan Hfuel.
  destruct (needle_aligned_columns v1 v2 vm vmm vg fuel Hv Hnan Hfuel)
    as (cols & Hret & Hi1 & Hi2 & Hs1 & Hs2).
  exists (wrap v1 v2 (row1 cols)), (wrap v1 v2 (row2 cols)).
  split; [exact Hret|]. rewrite Hi1, Hi2, <- Hs1, <- Hs2.
  destruct (cols_lengths cols) as (Hl & Hl1 & Hl2 & Hl3).
  split; [apply row_lengths|]. rewrite Hl.
  split; [lia|]. split; [lia|].
  unfold wrap. now destruct (is_str v1 && is_str v2).
Qed.

Lemma needle_rows_length_and_kind_witness :
  exists a1 a2,
    needle 5 (Vstr "ACG") (Vtuple ["A"; "G"])
           (Vfloat 1.5) (Vint (-1)) (Vint (-2)) = Return (a1, a2) /\
    length (items a1) = length (items a2) /\
    Nat.max (length (items (Vstr "ACG"))) (length (items (Vtuple ["A"; "G"])))
    <= length (items a1) /\
    length (items a1)
    <= length (items (Vstr "ACG")) + length (items (Vtuple ["A"; "G"])) /\
    type_of a1
    = (if is_str (Vstr "ACG") && is_str (Vtuple ["A"; "G"])
       then Tstr else Tlist) /\
    type_of a2 = type_of a1.
Proof.
  apply needle_rows_length_and_kind;
    [repeat split | exact I | simpl; lia | simpl; lia | | simpl; lia].
  intros [|[|[|r]]] [|[|[|[|c]]]] Hr Hc; simpl in Hr, Hc; try lia;
    vm_compute; reflexivity.
Defined.

(** ** [needle] against the comparison without gaps of [hamming] *)

Lemma gap_free_remove_gaps s : gap_free s -> remove_gaps s = s.
Proof.
  induction s as [|x s IH]; [reflexivity|]. intros Hf.
  apply gap_free_cons in Hf as [Hx Hf]. unfold remove_gaps in *. simpl.
  rewrite Hx. simpl. now rewrite IH.
Qed.

Lemma gap_free_no_double_gap s1 s2 : gap_free s1 -> no_double_gap s1 s2 = true.
Proof.
  revert s2. induction s1 as [|x s1 IH]; intros [|y s2] Hf; try reflexivity.
  apply gap_free_cons in Hf as [Hx Hf]. simpl. rewrite Hx. simpl.
  now apply IH.
Qed.

Lemma gap_free_is_alignment s1 s2 :
  length s1 = length s2 -> gap_free s1 -> gap_free s2 ->
  is_alignment s1 s2 s1 s2.
Proof.
  intros Hlen Hf1 Hf2. split; [done|].
  split; [now apply gap_free_remove_gaps|].
  split; [now apply gap_free_remove_gaps|].
  now apply gap_free_no_double_gap.
Qed.

(** The score of two strings of the same length set one over the other:
    [match] at every position where they agree, [mismatch] at the
    others, which [hamming] counts. *)
Lemma align_score_ungapped (m mm g : Z) s1 :
  forall s2,
    String.length s1 = String.length s2 ->
    gap_free (chars s1) -> gap_free (chars s2) ->
    align_score m mm g (chars s1) (chars s2)
    = (m * (Z.of_nat (String.length s1)
            - Z.of_nat (mismatch_count (list_ascii_of_string s1)
                                       (list_ascii_of_string s2)))
       + mm * Z.of_nat (mismatch_count (list_ascii_of_string s1)
                                       (list_ascii_of_string s2)))%Z.
Proof.
  induction s1 as [|x s1 IH]; intros [|y s2] Hlen Hf1 Hf2;
    try discriminate Hlen.
  - cbn [list_ascii_of_string]. rewrite mismatch_count_nil_l.
    change (align_score m mm g (chars EmptyString) (chars EmptyString))
      with 0%Z.
    simpl. lia.
  - rewrite !chars_cons in *.
    apply gap_free_cons in Hf1 as [Hx Hf1].
    apply gap_free_cons in Hf2 as [Hy Hf2].
    injection Hlen as Hlen.
    cbn [align_score list_ascii_of_string String.length].
    rewrite mismatch_count_cons, (IH s2 Hlen Hf1 Hf2).
    change (@num_add Z Z_number) with Z.add.
    unfold col_score. rewrite Hx, Hy. cbn [orb String.eqb].
    destruct (Ascii.eqb x y); cbn [andb]; lia.
Qed.

(** X17. For two strings of the same length that hold no ['-'], and
    integer scores, the alignment [needle] returns scores at least as
    much as the two strings set one over the other without a gap:
    [match] for each of the [len - dist] positions at which they agree
    and [mismatch] for each of the [dist] others, [dist] being the
    first component of [hamming]. *)
Theorem needle_score_at_least_ungapped s1 s2 m mm g fuel :
  String.length s1 = String.length s2 ->
  gap_free (chars s1) -> gap_free (chars s2) ->
  String.length s1 + String.length s2 <= fuel ->
  exists a1 a2 dist distplus1 distminus1,
    needle fuel (Vstr s1) (Vstr s2) (Vint m) (Vint mm) (Vint g)
    = Return (a1, a2) /\
    hamming (Vstr s1) (Vstr s2) = Return (dist, distplus1, distminus1) /\
    (m * (Z.of_nat (String.length s1) - Z.of_nat dist) + mm * Z.of_nat dist
     <= align_score m mm g (items a1) (items a2))%Z.
Proof.
  intros Hlen Hf1 Hf2 Hfuel.
  assert (Hchars : forall s, length (chars s) = String.length s).
  { intros s. unfold chars.
    now rewrite length_map, length_list_ascii_of_string. }
  destruct (needle_int_columns (Vstr s1) (Vstr s2) m mm g fuel)
    as (cols & Hret & Hi1 & Hi2 & Hs1 & Hs2 & Hsc & _);
    [reflexivity | reflexivity | cbn [items]; rewrite !Hchars; lia |].
  cbn [items] in Hs1, Hs2, Hsc.
  eexists _, _, _, _, _. split; [exact Hret|].
  split; [apply hamming_str|]. rewrite Hi1, Hi2.
  rewrite <- (align_score_ungapped m mm g s1 s2 Hlen Hf1 Hf2).
  rewrite cols_score_align, Hsc by congruence.
  apply nw_optimal. apply gap_free_is_alignment; try done.
  now rewrite !Hchars.
Qed.

Lemma needle_score_at_least_ungapped_witness :
  exists a1 a2 dist distplus1 distminus1,
    needle_default 8 (Vstr "ACGT") (Vstr "AGGT") = Return (a1, a2) /\
    hamming (Vstr "ACGT") (Vstr "AGGT")
    = Return (dist, distplus1, distminus1) /\
    (100 * (Z.of_nat (String.length "ACGT") - Z.of_nat dist)
     + (-1) * Z.of_nat dist
     <= align_score 100 (-1) (-2) (items a1) (items a2))%Z.
Proof.
  apply (needle_score_at_least_ungapped "ACGT" "AGGT" 100 (-1) (-2) 8);
    [reflexivity | reflexivity | reflexivity | simpl; lia].
Defined.

(** ** Whatever [needle] returns is an alignment *)

(** The backtrace over any grid and any kind of number, [nan] included:
    each pass either writes one column or changes nothing, so whatever
    the three loops leave is a list of columns that spells the two
    sequences. *)
Section TraceSafety.
Context {R : Type} `{Number R}.
Variables seq1 seq2 : list symbol.
Variables match_ mismatch gap : R.
Variable G : list (list R).

Local Abbreviation spells := (trace_inv (fun _ _ _ => True) seq1 seq2).

Lemma trace_body_spells t :
  spells t -> 0 < tr_i t -> 0 < tr_j t ->
  spells (trace_body seq1 seq2 match_ mismatch gap G t).
Proof.
  destruct t as [i j a1 a2]. intros (Hi & Hj & cols & H1 & H2 & H3 & H4 & HQ).
  cbn [tr_i tr_j align1 align2] in *. intros Hi0 Hj0.
  destruct i as [|i]; [lia|]. destruct j as [|j]; [lia|].
  unfold trace_body. cbn [tr_i tr_j align1 align2].
  replace (S i - 1) with i by lia. replace (S j - 1) with j by lia.
  destruct (num_eqb _ _); [|destruct (num_eqb _ _); [|destruct (num_eqb _ _)]].
  - split; [cbn; lia|]. split; [cbn; lia|].
    add_column (Both (item_at seq1 j) (item_at seq2 i)) cols H1 H2 H3 H4.
  - split; [cbn; lia|]. split; [cbn; lia|].
    add_column (Gap2 (item_at seq1 j)) cols H1 H2 H3 H4.
  - split; [cbn; lia|]. split; [cbn; lia|].
    add_column (Gap1 (item_at seq2 i)) cols H1 H2 H3 H4.
  - split; [cbn; lia|]. split; [cbn; lia|]. exists cols. auto.
Qed.

Lemma trace_loop_spells fuel :
  forall t t',
    trace_loop seq1 seq2 match_ mismatch gap fuel G t = Some t' ->
    spells t -> spells t' /\ (tr_i t' = 0 \/ tr_j t' = 0).
Proof.
  induction fuel as [|fuel IH]; intros t t' Hloop Hinv; simpl in Hloop.
  - destruct (Nat.ltb_spec 0 (tr_i t)), (Nat.ltb_spec 0 (tr_j t));
      simpl in Hloop; try discriminate Hloop;
      injection Hloop as <-; (split; [done|lia]).
  - destruct (Nat.ltb_spec 0 (tr_i t)), (Nat.ltb_spec 0 (tr_j t));
      simpl in Hloop;
      try (injection Hloop as <-; split; [done|lia]).
    apply (IH _ _ Hloop). now apply trace_body_spells.
Qed.
End TraceSafety.

Lemma needle_core_spells {R : Type} `{Number R} seq1 seq2
    (match_ mismatch gap : R) fuel a1 a2 :
  needle_core seq1 seq2 match_ mismatch gap fuel = Some (a1, a2) ->
  exists cols,
    a1 = row1 cols /\ a2 = row2 cols /\
    src1 cols = seq1 /\ src2 cols = seq2.
Proof.
  unfold needle_core, backtrace.
  destruct (trace_loop seq1 seq2 match_ mismatch gap fuel _ _)
    as [t|] eqn:Hloop; [|discriminate].
  apply trace_loop_spells in Hloop as [Hinv Hz].
  2:{ split; [done|]. split; [done|]. exists [].
      cbn [tr_i tr_j align1 align2]. rewrite !drop_all. auto. }
  destruct t as [i j a b]. cbn [tr_i tr_j align1 align2] in *.
  assert (Hend : exists b1 b2,
             finish_i seq2 i (finish_j seq1 j a b).1 (finish_j seq1 j a b).2
             = (b1, b2) /\
             trace_inv (fun _ _ _ => True) seq1 seq2 (Trace 0 0 b1 b2)).
  { destruct Hz as [-> | ->].
    - destruct (finish_j_inv seq1 seq2 (fun _ _ _ => True)
                  ltac:(auto) j a b Hinv) as (b1 & b2 & -> & Hinv').
      exists b1, b2. auto.
    - cbn [finish_j fst snd].
      now apply (finish_i_inv seq1 seq2 (fun _ _ _ => True) ltac:(auto)). }
  destruct Hend as (b1 & b2 & Hfin & _ & _ & cols & H1 & H2 & H3 & H4 & _).
  cbn [tr_i tr_j align1 align2] in *. rewrite !drop_0 in *.
  destruct (finish_j seq1 j a b) as [c1 c2]. cbn [fst snd] in Hfin.
  rewrite Hfin. intros [= <- <-]. exists cols. auto.
Qed.

(** X18. Whatever the scores are, [nan] and infinite ones included, and
    however many passes its first loop is given: when [needle] returns,
    what it returns is an alignment of its two arguments, two rows of
    the same length whose columns, read left to right, spell [seq1] and
    [seq2] in order, each column holding an item of both or an item of
    one against an inserted gap marker.  No item is dropped, added or
    moved. *)
Theorem needle_returns_only_alignments fuel v1 v2 vm vmm vg a1 a2 :
  exact_score vm -> exact_score vmm -> exact_score vg ->
  needle fuel v1 v2 vm vmm vg = Return (a1, a2) ->
  Aligned (items v1) (items v2) (items a1) (items a2) /\
  length (items a1) = length (items a2).
Proof.
  intros _ _ _. unfold needle.
  destruct (check_args v1 v2 vm vmm vg) as [[]| |] eqn:Hargs;
    try discriminate.
  simpl mbind. unfold outcome_bind.
  destruct (align_lists fuel (items v1) (items v2) vm vmm vg)
    as [[b1 b2]|] eqn:Hal; [|discriminate].
  intros [= <- <-].
  assert (Hcols : exists cols,
             b1 = row1 cols /\ b2 = row2 cols /\
             src1 cols = items v1 /\ src2 cols = items v2).
  { unfold align_lists in Hal.
    destruct vm, vmm, vg; now apply needle_core_spells in Hal. }
  destruct Hcols as (cols & -> & -> & Hs1 & Hs2).
  assert (Hi1 : items (wrap v1 v2 (row1 cols)) = row1 cols).
  { apply items_wrap. intros E1 _. apply row1_single. rewrite Hs1.
    now apply is_str_items_single. }
  assert (Hi2 : items (wrap v1 v2 (row2 cols)) = row2 cols).
  { apply items_wrap. intros _ E2. apply row2_single. rewrite Hs2.
    now apply is_str_items_single. }
  rewrite Hi1, Hi2, <- Hs1, <- Hs2.
  split; [apply cols_Aligned|apply row_lengths].
Qed.

Lemma needle_returns_only_alignments_witness :
  Aligned (items (Vstr "AB")) (items (Vstr "A"))
          (items (Vstr "AB")) (items (Vstr "-A")) /\
  length (items (Vstr "AB")) = length (items (Vstr "-A")).
Proof.
  apply (needle_returns_only_alignments 3 (Vstr "AB") (Vstr "A")
           (Vint 100) (Vint (-1)) (Vfloat infinity));
    [simpl; lia | simpl; lia | exact I | reflexivity].
Defined.
